(** * short-bigfive: the question catalog, the scorer and the analysis session

    A shallow embedding of the quiz application's logic:
    - [QUESTIONS], the constant table of [constants.ts];
    - [scores], [calculateTrait] and [handleAnswer] of [App.tsx];
    - [runAnalysis] (split at its [await]) and [reset] of [App.tsx];
    - [JSON.parse], which [runAnalysis] applies to the response text;
    - the conditions under which the rendered view offers each handler,
      and the worlds reachable through the view;
    - the prompt text of the request, with [toFixed(1)], the radar chart
      values and the score grid of the results view, and the index of
      the trivia carousel.

    Conventions.  A question id and a raw answer are JavaScript numbers
    that only ever hold small integers here, so both are [Z]; the answer
    record [Record<number, number>] is a [gmap Z Z].  A computed score is
    a JavaScript number obtained by one addition, one subtraction and one
    division by two of such integers: it is modelled as an exact rational
    ([Qc]) or [NaN].  A [null] state value is [None].  The awaited network
    call is an event of the environment: it settles at any later moment,
    by a rejection or by a response text. *)

From Stdlib Require Import QArith Qcanon Qround Ascii String DecimalString.
From stdpp Require Import gmap strings list fin_maps numbers.

#[local] Open Scope Z_scope.
#[local] Set Warnings "-clear-no-such-hyp".

(** ** Data model ([types.ts]) *)

Module Trait.
Inductive t := E | A | C | N | O.

#[global] Instance eq_dec : EqDecision t.
Proof. solve_decision. Defined.
End Trait.

Record Question := {
  id : Z;
  text : string;
  trait : Trait.t;
  isPositive : bool
}.

(** A JavaScript number as the scorer can produce it. *)
Inductive number :=
  | Num (q : Qc)
  | NaN.

Definition num_of_Z (z : Z) : number := Num (Qc_of_Z z).

Module Scores.
Record t := mk {
  E : number;
  A : number;
  C : number;
  N : number;
  O : number
}.

(** [scores[T]] *)
Definition get (T : Trait.t) (s : t) : number :=
  match T with
  | Trait.E => E s
  | Trait.A => A s
  | Trait.C => C s
  | Trait.N => N s
  | Trait.O => O s
  end.
End Scores.

(** ** The catalog ([constants.ts]) *)

Definition QUESTIONS : list Question := [
  {| id := 1; text := "私は、初めての人に会うのが好きで、会話をするのが好きで、人と会うのを楽しめる人間だ。"; trait := Trait.E; isPositive := true |};
  {| id := 2; text := "私は、人に対して思いやりがあり、その思いやりを行動に移し、他人を差別しない人間だ。"; trait := Trait.A; isPositive := true |};
  {| id := 3; text := "私は、きっちりと物事をこなし、手際よく行動し、適切に物事を行おうとする人間だ。"; trait := Trait.C; isPositive := true |};
  {| id := 4; text := "私は、いつも心配事が多く、不安になりやすく、気分の浮き沈みが多い人間だ。"; trait := Trait.N; isPositive := true |};
  {| id := 5; text := "私は、知的な活動が得意で、創造性が高くて好奇心があり、新たなことを探求する人間だ。"; trait := Trait.O; isPositive := true |};
  {| id := 6; text := "私は、恥ずかしがり屋で、物静かで、人が多いパーティなどは苦手な人間だ。"; trait := Trait.E; isPositive := false |};
  {| id := 7; text := "私は、すぐ思ったことを口にし、冷淡な面があり、他人に同情を感じることはめったにない人間だ。"; trait := Trait.A; isPositive := false |};
  {| id := 8; text := "私は、あまり考えずに行動し、さほどきっちりは行動せず、ギリギリまで物事に手を付けない人間だ。"; trait := Trait.C; isPositive := false |};
  {| id := 9; text := "私は、たいていリラックスしており、落ち着きがあり、めったに問題について悩まない人間だ。"; trait := Trait.N; isPositive := false |};
  {| id := 10; text := "私は、物事を現実的に考え、伝統的な考え方を好み、めったに空想などで時間を浪費しない人間だ。"; trait := Trait.O; isPositive := false |}
].

(** The ids of the catalog, as the key set an answer record can have when
    it is filled from the rendered question list. *)
Definition question_ids : gset Z := list_to_set (id <$> QUESTIONS).

(** ** JavaScript number and completion semantics used by the scorer *)

(** [ToNumber] of a property read: a missing key reads [undefined], and
    [undefined] converts to [NaN]. *)
Definition ToNumber (v : option Z) : number :=
  match v with
  | Some z => num_of_Z z
  | None => NaN
  end.

Definition num_add (a b : number) : number :=
  match a, b with
  | Num x, Num y => Num (x + y)%Qc
  | _, _ => NaN
  end.

Definition num_sub (a b : number) : number :=
  match a, b with
  | Num x, Num y => Num (x - y)%Qc
  | _, _ => NaN
  end.

(** Division; the only divisor in the program is the literal [2], so the
    infinities of a zero divisor are folded into [NaN]. *)
Definition num_div (a b : number) : number :=
  match a, b with
  | Num x, Num y => if decide (y = Q2Qc 0) then NaN else Num (x / y)%Qc
  | _, _ => NaN
  end.

(** The outcome of evaluating an expression: a value, or a thrown
    [TypeError] (reading [.id] of [undefined]). *)
Inductive completion (T : Type) :=
  | Returns (v : T)
  | Throws.
Arguments Returns {T} v.
Arguments Throws {T}.

#[export] Instance completion_ret : MRet completion := λ T v, Returns v.

#[export] Instance completion_bind : MBind completion := λ T U k c,
  match c with
  | Returns v => k v
  | Throws => Throws
  end.

(** ** The scorer ([App.tsx], the [scores] memo) *)

(** [QUESTIONS.find(q => q.trait === trait && q.isPositive)] *)
Definition posQ (T : Trait.t) : option Question :=
  List.find (λ q, bool_decide (trait q = T) && isPositive q) QUESTIONS.

(** [QUESTIONS.find(q => q.trait === trait && !q.isPositive)] *)
Definition negQ (T : Trait.t) : option Question :=
  List.find (λ q, bool_decide (trait q = T) && negb (isPositive q)) QUESTIONS.

Definition calculateTrait (answers : gmap Z Z) (T : Trait.t) : completion number :=
  match posQ T, negQ T with
  | Some pq, Some nq =>
      let posVal := ToNumber (answers !! id pq) in
      let negVal := ToNumber (answers !! id nq) in
      Returns (num_div (num_add posVal (num_sub (num_of_Z 4) negVal)) (num_of_Z 2))
  | _, _ => Throws
  end.

(** [Object.keys(answers).length < 10] gates the computation; [None] is
    the memo's [null]. *)
Definition scores (answers : gmap Z Z) : completion (option Scores.t) :=
  if decide (Z.of_nat (size answers) < 10) then Returns None
  else
    e ← calculateTrait answers Trait.E;
    a ← calculateTrait answers Trait.A;
    c ← calculateTrait answers Trait.C;
    n ← calculateTrait answers Trait.N;
    o ← calculateTrait answers Trait.O;
    Returns (Some (Scores.mk e a c n o)).

(** [setAnswers(prev => ({ ...prev, [questionId]: value }))] *)
Definition handleAnswer (questionId value : Z) (answers : gmap Z Z) : gmap Z Z :=
  <[questionId := value]> answers.

(** [Object.keys(answers).length === QUESTIONS.length] *)
Definition allAnswered (answers : gmap Z Z) : bool :=
  bool_decide (size answers = List.length QUESTIONS).


(** ** [JSON.parse]

    The platform function the analysis continuation calls on the response
    text, as a recursive-descent parser for the JSON grammar.  Text is a
    byte string; a number is kept as its lexeme; a [\uXXXX] escape is
    decoded to the UTF-8 bytes of that code unit.  [None] is the thrown
    [SyntaxError]. *)

Module JSON.

#[local] Set Warnings "-register-all".

Inductive value :=
  | Null
  | Bool (b : bool)
  | Number (lexeme : string)
  | Str (s : string)
  | Array (items : list value)
  | Object (members : list (string * value)).

(** [v[key]] for an own property of a parsed object; of duplicate keys
    in the text the last one is the property's value. *)
Definition get (key : string) (v : value) : option value :=
  match v with
  | Object members =>
      snd <$> List.find (λ m, String.eqb (fst m) key) (rev members)
  | _ => None
  end.

Definition code (c : ascii) : N := N_of_ascii c.

Definition quote : ascii := ascii_of_N 34.
Definition backslash : ascii := ascii_of_N 92.

Definition is_ws (c : ascii) : bool :=
  let n := code c in
  (n =? 32)%N || (n =? 9)%N || (n =? 10)%N || (n =? 13)%N.

Definition is_digit (c : ascii) : bool :=
  let n := code c in (48 <=? n)%N && (n <=? 57)%N.

Fixpoint skip_ws (cs : list ascii) : list ascii :=
  match cs with
  | c :: r => if is_ws c then skip_ws r else cs
  | [] => []
  end.

Fixpoint digits (cs : list ascii) : list ascii * list ascii :=
  match cs with
  | c :: r => if is_digit c then let '(ds, r') := digits r in (c :: ds, r') else ([], cs)
  | [] => ([], [])
  end.

Fixpoint strip (prefix cs : list ascii) : option (list ascii) :=
  match prefix, cs with
  | [], _ => Some cs
  | p :: prefix', c :: r => if Ascii.eqb p c then strip prefix' r else None
  | _ :: _, [] => None
  end.

Definition hex (c : ascii) : option N :=
  let n := code c in
  if (48 <=? n)%N && (n <=? 57)%N then Some (n - 48)%N
  else if (97 <=? n)%N && (n <=? 102)%N then Some (n - 87)%N
  else if (65 <=? n)%N && (n <=? 70)%N then Some (n - 55)%N
  else None.

Definition utf8 (u : N) : list ascii :=
  if (u <? 128)%N then [ascii_of_N u]
  else if (u <? 2048)%N then
    [ascii_of_N (192 + u / 64); ascii_of_N (128 + u mod 64)]
  else
    [ascii_of_N (224 + u / 4096); ascii_of_N (128 + (u / 64) mod 64);
     ascii_of_N (128 + u mod 64)].

(** The body of a string literal, after its opening quote. *)
Fixpoint parse_chars (cs acc : list ascii) : option (string * list ascii) :=
  match cs with
  | [] => None
  | c :: r =>
      if Ascii.eqb c quote then Some (string_of_list_ascii (rev acc), r)
      else if Ascii.eqb c backslash then
        match r with
        | e :: r1 =>
            if Ascii.eqb e "u"%char then
              match r1 with
              | h1 :: h2 :: h3 :: h4 :: r2 =>
                  match hex h1, hex h2, hex h3, hex h4 with
                  | Some a, Some b, Some c', Some d =>
                      parse_chars r2
                        (rev (utf8 (((a * 16 + b) * 16 + c') * 16 + d)%N) ++ acc)
                  | _, _, _, _ => None
                  end
              | _ => None
              end
            else
              let unescaped :=
                if Ascii.eqb e quote then Some quote
                else if Ascii.eqb e backslash then Some backslash
                else if Ascii.eqb e "/"%char then Some "/"%char
                else if Ascii.eqb e "b"%char then Some (ascii_of_N 8)
                else if Ascii.eqb e "f"%char then Some (ascii_of_N 12)
                else if Ascii.eqb e "n"%char then Some (ascii_of_N 10)
                else if Ascii.eqb e "r"%char then Some (ascii_of_N 13)
                else if Ascii.eqb e "t"%char then Some (ascii_of_N 9)
                else None in
              match unescaped with
              | Some x => parse_chars r1 (x :: acc)
              | None => None
              end
        | [] => None
        end
      else if (code c <? 32)%N then None
      else parse_chars r (c :: acc)
  end.

(** A number literal: an optional minus sign, an integer part without a
    leading zero (unless it is the single digit zero), an optional
    fraction and an optional exponent. *)
Definition parse_number (cs : list ascii) : option (string * list ascii) :=
  let '(sign, r0) :=
    match cs with
    | c :: r => if Ascii.eqb c "-"%char then ([c], r) else ([], cs)
    | [] => ([], cs)
    end in
  let '(int, r1) := digits r0 in
  match int with
  | [] => None
  | d :: ds =>
      if Ascii.eqb d "0"%char && negb (bool_decide (ds = [])) then None
      else
        let frac :=
          match r1 with
          | c :: r =>
              if Ascii.eqb c "."%char then
                match digits r with
                | ([], _) => None
                | (fs, r2) => Some (c :: fs, r2)
                end
              else Some ([], r1)
          | [] => Some ([], r1)
          end in
        match frac with
        | None => None
        | Some (fr, r2) =>
            let exp :=
              match r2 with
              | c :: r =>
                  if Ascii.eqb c "e"%char || Ascii.eqb c "E"%char then
                    let '(sg, r3) :=
                      match r with
                      | s :: r' =>
                          if Ascii.eqb s "+"%char || Ascii.eqb s "-"%char
                          then ([s], r') else ([], r)
                      | [] => ([], r)
                      end in
                    match digits r3 with
                    | ([], _) => None
                    | (es, r4) => Some (c :: sg ++ es, r4)
                    end
                  else Some ([], r2)
              | [] => Some ([], r2)
              end in
            match exp with
            | None => None
            | Some (ex, r3) =>
                Some (string_of_list_ascii (sign ++ int ++ fr ++ ex), r3)
            end
        end
  end.

(** A value that contains no other value: a string, one of the three
    literal names, or a number.  [c] is its first byte. *)
Definition parse_scalar (c : ascii) (r : list ascii) : option (value * list ascii) :=
  if Ascii.eqb c quote then
    match parse_chars r [] with
    | Some (s, r') => Some (Str s, r')
    | None => None
    end
  else if Ascii.eqb c "t"%char then
    match strip (list_ascii_of_string "rue") r with
    | Some r' => Some (Bool true, r')
    | None => None
    end
  else if Ascii.eqb c "f"%char then
    match strip (list_ascii_of_string "alse") r with
    | Some r' => Some (Bool false, r')
    | None => None
    end
  else if Ascii.eqb c "n"%char then
    match strip (list_ascii_of_string "ull") r with
    | Some r' => Some (Null, r')
    | None => None
    end
  else
    match parse_number (c :: r) with
    | Some (lexeme, r') => Some (Number lexeme, r')
    | None => None
    end.

(** After an opening bracket or brace: [true] with the rest if the
    closing byte follows at once, [false] if items follow. *)
Definition opened (close : ascii) (r : list ascii) : option (bool * list ascii) :=
  match skip_ws r with
  | c :: r' => if Ascii.eqb c close then Some (true, r') else Some (false, c :: r')
  | [] => None
  end.

(** After an item: [true] with the rest after a comma, [false] after the
    closing byte. *)
Definition separator (close : ascii) (cs : list ascii) : option (bool * list ascii) :=
  match skip_ws cs with
  | c :: r =>
      if Ascii.eqb c ","%char then Some (true, r)
      else if Ascii.eqb c close then Some (false, r)
      else None
  | [] => None
  end.

(** The key of a member and the colon after it. *)
Definition parse_key (cs : list ascii) : option (string * list ascii) :=
  match skip_ws cs with
  | c :: r =>
      if Ascii.eqb c quote then
        match parse_chars r [] with
        | Some (key, r1) =>
            match skip_ws r1 with
            | c1 :: r2 => if Ascii.eqb c1 ":"%char then Some (key, r2) else None
            | [] => None
            end
        | None => None
        end
      else None
  | [] => None
  end.

(** A value, the elements of an array after its opening bracket, and the
    members of an object after its opening brace.  Every call consumes
    fuel; [parse] supplies two units per input byte. *)
Fixpoint parse_value (fuel : nat) (cs : list ascii) : option (value * list ascii) :=
  match fuel with
  | O => None
  | S fuel' =>
      match skip_ws cs with
      | [] => None
      | c :: r =>
          if Ascii.eqb c "{"%char then
            match opened "}"%char r with
            | Some (true, r') => Some (Object [], r')
            | Some (false, r') => parse_members fuel' r' []
            | None => None
            end
          else if Ascii.eqb c "["%char then
            match opened "]"%char r with
            | Some (true, r') => Some (Array [], r')
            | Some (false, r') => parse_elements fuel' r' []
            | None => None
            end
          else parse_scalar c r
      end
  end
with parse_elements (fuel : nat) (cs : list ascii) (acc : list value)
    : option (value * list ascii) :=
  match fuel with
  | O => None
  | S fuel' =>
      match parse_value fuel' cs with
      | Some (v, r) =>
          match separator "]"%char r with
          | Some (true, r') => parse_elements fuel' r' (v :: acc)
          | Some (false, r') => Some (Array (rev (v :: acc)), r')
          | None => None
          end
      | None => None
      end
  end
with parse_members (fuel : nat) (cs : list ascii) (acc : list (string * value))
    : option (value * list ascii) :=
  match fuel with
  | O => None
  | S fuel' =>
      match parse_key cs with
      | Some (key, r) =>
          match parse_value fuel' r with
          | Some (v, r1) =>
              match separator "}"%char r1 with
              | Some (true, r2) => parse_members fuel' r2 ((key, v) :: acc)
              | Some (false, r2) => Some (Object (rev ((key, v) :: acc)), r2)
              | None => None
              end
          | None => None
          end
      | None => None
      end
  end.

(** [JSON.parse(text)]: one value, surrounded by white space only. *)
Definition parse (text : string) : option value :=
  let cs := list_ascii_of_string text in
  match parse_value (2 * List.length cs + 2) cs with
  | Some (v, r) => match skip_ws r with [] => Some v | _ :: _ => None end
  | None => None
  end.

End JSON.

(** ** The session ([App.tsx], component state and handlers) *)

(** The [useState] cells of [App].  [analysis] holds whatever
    [JSON.parse] returned ([setAnalysis(result)] with [result : any]);
    a parsed [null] is the cell's [null].  The trivia index only drives
    the loading panel's text and is left out. *)
Record App := {
  answers : gmap Z Z;
  isAnalyzing : bool;
  analysis : option JSON.value;
  error : option string;
  showResults : bool
}.

Definition initial : App :=
  {| answers := ∅; isAnalyzing := false; analysis := None;
     error := None; showResults := false |}.

Definition setAnswers (f : gmap Z Z → gmap Z Z) (s : App) : App :=
  {| answers := f (answers s); isAnalyzing := isAnalyzing s;
     analysis := analysis s; error := error s; showResults := showResults s |}.

Definition setIsAnalyzing (b : bool) (s : App) : App :=
  {| answers := answers s; isAnalyzing := b;
     analysis := analysis s; error := error s; showResults := showResults s |}.

Definition setAnalysis (a : option JSON.value) (s : App) : App :=
  {| answers := answers s; isAnalyzing := isAnalyzing s;
     analysis := a; error := error s; showResults := showResults s |}.

Definition setError (e : option string) (s : App) : App :=
  {| answers := answers s; isAnalyzing := isAnalyzing s;
     analysis := analysis s; error := e; showResults := showResults s |}.

Definition setShowResults (b : bool) (s : App) : App :=
  {| answers := answers s; isAnalyzing := isAnalyzing s;
     analysis := analysis s; error := error s; showResults := b |}.

Definition nullable (v : JSON.value) : option JSON.value :=
  match v with
  | JSON.Null => None
  | _ => Some v
  end.

(** How the awaited [generateContent] call settles: the promise rejects,
    or it resolves to a response whose [text] may be [undefined]. *)
Inductive Response :=
  | Rejected
  | Resolved (text : option string).

(** [response.text || '{}'] *)
Definition text_or_default (text : option string) : string :=
  match text with
  | None => "{}"
  | Some EmptyString => "{}"
  | Some s => s
  end.

Definition ERROR_MESSAGE : string :=
  "分析中にエラーが発生しました。もう一度お試しください。".

(** [handleAnswer], on the component state. *)
Definition answer (questionId value : Z) (s : App) : App :=
  setAnswers (handleAnswer questionId value) s.

(** [runAnalysis] up to its [await]: the new state and the request sent,
    if any.  A request carries the scores the prompt is written from.
    The memo [scores] belongs to the render the handler was created in;
    a render in which it threw has no handlers. *)
Definition runAnalysis (s : App) : App * option Scores.t :=
  match scores (answers s) with
  | Returns (Some sc) => (setError None (setIsAnalyzing true s), Some sc)
  | Returns None => (s, None)
  | Throws => (s, None)
  end.

(** [runAnalysis] from its [await] on: the [try] body after the call,
    the [catch] and the [finally]. *)
Definition runAnalysis_resume (r : Response) (s : App) : App :=
  let caught := setError (Some ERROR_MESSAGE) s in
  let settled :=
    match r with
    | Rejected => caught
    | Resolved text =>
        match JSON.parse (text_or_default text) with
        | Some result => setShowResults true (setAnalysis (nullable result) s)
        | None => caught
        end
    end in
  setIsAnalyzing false settled.

Definition reset (s : App) : App :=
  setError None (setShowResults false (setAnalysis None (setAnswers (λ _, ∅) s))).

(** ** What the rendered view shows and offers *)

(** The four views of the JSX: the results view when [showResults];
    otherwise the question list, with the loading panel while
    [isAnalyzing], else the submit button, enabled once [allAnswered]. *)
Inductive Phase := Collecting | Ready | Analyzing | Displaying.

Definition phase (s : App) : Phase :=
  if showResults s then Displaying
  else if isAnalyzing s then Analyzing
  else if allAnswered (answers s) then Ready
  else Collecting.

(** The session together with the network: the number of calls awaiting
    their response and every request sent so far, latest first. *)
Record World := {
  app : App;
  inflight : nat;
  requests : list Scores.t
}.

Definition boot : World :=
  {| app := initial; inflight := 0%nat; requests := [] |}.

Inductive Event :=
  | Answer (questionId value : Z)
  | Run
  | Reset
  | Settle (r : Response).

(** The handlers the current view binds: an answer button of a listed
    question (values [0..4]) in the question list; the submit button
    when it is rendered and not disabled; the reset button in the results
    view.  A response can arrive while a call is awaited. *)
Definition offered (w : World) (e : Event) : bool :=
  match e with
  | Answer questionId value =>
      negb (showResults (app w))
      && bool_decide (questionId ∈ question_ids)
      && bool_decide (0 ≤ value ≤ 4)
  | Run =>
      negb (showResults (app w)) && negb (isAnalyzing (app w))
      && allAnswered (answers (app w))
  | Reset => showResults (app w)
  | Settle _ => bool_decide (0 < inflight w)%nat
  end.

Definition dispatch (e : Event) (w : World) : World :=
  match e with
  | Answer questionId value =>
      {| app := answer questionId value (app w);
         inflight := inflight w; requests := requests w |}
  | Run =>
      match runAnalysis (app w) with
      | (s, Some request) =>
          {| app := s; inflight := S (inflight w);
             requests := request :: requests w |}
      | (s, None) =>
          {| app := s; inflight := inflight w; requests := requests w |}
      end
  | Reset =>
      {| app := reset (app w); inflight := inflight w; requests := requests w |}
  | Settle r =>
      {| app := runAnalysis_resume r (app w);
         inflight := Nat.pred (inflight w); requests := requests w |}
  end.

(** The worlds a user can bring about through the rendered view. *)
Inductive reachable : World → Prop :=
  | reachable_boot : reachable boot
  | reachable_step w e :
      reachable w → offered w e = true → reachable (dispatch e w).

(** Handlers called one after another, whether or not a view offers them. *)
Definition run (es : list Event) (w : World) : World :=
  foldl (λ w e, dispatch e w) w es.

(** Single quotes written for double quotes, to spell JSON texts. *)
Definition dq (s : string) : string :=
  string_of_list_ascii
    ((λ c, if Ascii.eqb c "'"%char then JSON.quote else c)
       <$> list_ascii_of_string s).


(** The answer record of the all-maxed scenario. *)
Definition scenario_answers : gmap Z Z :=
  list_to_map
    [(1, 4); (2, 4); (3, 4); (4, 0); (5, 4); (6, 0); (7, 0); (8, 0); (9, 0); (10, 0)].

(** ** The invariant of the view-driven session *)

(** What holds of every world reached through the view: the answered ids
    are catalog ids; a call is awaited exactly while the flag is set; the
    results view is never shown during a flight; no analysis is held
    while the results view is hidden; and a flight only starts from, and
    keeps, a complete answer record. *)
Definition invariant (w : World) : Prop :=
  dom (answers (app w)) ⊆ question_ids
  ∧ inflight w = (if isAnalyzing (app w) then 1 else 0)%nat
  ∧ (showResults (app w) = true → isAnalyzing (app w) = false)
  ∧ (showResults (app w) = false → analysis (app w) = None)
  ∧ (isAnalyzing (app w) = true → size (answers (app w)) = 10%nat).

(** Whether the view offers each event of a sequence in turn. *)
Fixpoint offered_all (es : list Event) (w : World) : bool :=
  match es with
  | [] => true
  | e :: es' => offered w e && offered_all es' (dispatch e w)
  end.

(** ** Example sessions and payloads *)

(** The scenario's answers, clicked in the order of the list. *)
Definition scenario_events : list Event :=
  [Answer 1 4; Answer 2 4; Answer 3 4; Answer 4 0; Answer 5 4;
   Answer 6 0; Answer 7 0; Answer 8 0; Answer 9 0; Answer 10 0].

(** All ten questions answered and the submit button clicked once. *)
Definition in_flight : World := run (scenario_events ++ [Run]) boot.

(** A response text with the fields [nickname], [traits] and [partner],
    and no [jobs]. *)
Definition payload_without_jobs : string :=
  dq "{'nickname':'a','traits':'b','partner':'c'}".

(** A response text with all four fields. *)
Definition payload_complete : string :=
  dq "{'nickname':'a','traits':'b','jobs':'c','partner':'d'}".

(** The scenario answered, submitted and its analysis received. *)
Definition displaying : World :=
  run (scenario_events ++ [Run; Settle (Resolved (Some payload_complete))]) boot.

(** ** Rendering a score: [toFixed(1)]

    The platform method, for a number of magnitude below 10^21: the
    sign, then the integer nearest to ten times the magnitude (the larger
    one of two equally near), written with a point before its last
    digit. *)

Definition decimal (z : Z) : string :=
  NilZero.string_of_uint (N.to_uint (Z.to_N z)).

Definition toFixed1 (x : number) : string :=
  match x with
  | NaN => "NaN"
  | Num q =>
      let negative := bool_decide (q < Q2Qc 0)%Qc in
      let magnitude := if negative then (- q)%Qc else q in
      let n := Qfloor (magnitude * Qc_of_Z 10 + Q2Qc (1 # 2))%Qc in
      ((if negative then "-" else EmptyString)
         ++ decimal (n / 10) ++ "." ++ decimal (n mod 10))%string
  end.

(** ** The request ([App.tsx], the [contents] of [generateContent])

    The template literal, cut at its five interpolations. *)

(** The text up to the first score. *)
Definition contents_head : string :=
  "
          以下のビッグファイブ性格診断のスコア（0〜4の範囲）に基づいて、詳細な分析を行ってください。
          
          スコア:
          - 外向性: ".

(** The text between the scores of E and A. *)
Definition contents_A : string :=
  "
          - 協調性: ".

(** The text between the scores of A and C. *)
Definition contents_C : string :=
  "
          - 誠実性: ".

(** The text between the scores of C and N. *)
Definition contents_N : string :=
  "
          - 神経症的傾向: ".

(** The text between the scores of N and O. *)
Definition contents_O : string :=
  "
          - 開放性: ".

(** The text after the last score. *)
Definition contents_tail : string :=
  "
          
          以下の4つのセクションで回答してください。
          1. 性格特性に合わせた「二つ名」（例：『静かなる情熱の探求者』『社交界の太陽』など、キャッチーでかっこいいもの）
          2. 性格特性の詳細な特徴（あなたと似た性格特性を持つ著名人の例も挙げてください）
          3. 仕事に対する適性（向いている職種や環境）
          4. パートナー選びの適性（相性の良いタイプや注意点、また相性の良い著名人の例も挙げてください）
          
          **重要事項:**
          - 回答は日本語で、親しみやすくも専門的な洞察を含んだトーンでお願いします。
          - **重要なキーワードや文章は、Markdownの太字（**テキスト**）を使用して強調してください。**
          - 箇条書きや改行を適切に使い、読みやすいレイアウトにしてください。
        ".

Definition contents (scores : Scores.t) : string :=
  (contents_head ++ toFixed1 (Scores.E scores)
   ++ contents_A ++ toFixed1 (Scores.A scores)
   ++ contents_C ++ toFixed1 (Scores.C scores)
   ++ contents_N ++ toFixed1 (Scores.N scores)
   ++ contents_O ++ toFixed1 (Scores.O scores)
   ++ contents_tail)%string.

(** ** The results view ([App.tsx], radar chart and score grid) *)

(** [constants.ts] *)
Definition TRAIT_NAMES (T : Trait.t) : string :=
  match T with
  | Trait.E => "外向性 (Extraversion)"
  | Trait.A => "協調性 (Agreeableness)"
  | Trait.C => "誠実性 (Conscientiousness)"
  | Trait.N => "神経症的傾向 (Neuroticism)"
  | Trait.O => "開放性 (Openness)"
  end.

(** [s.split(' ')[0]]: the text before the first space, all of it if
    there is none. *)
Fixpoint first_word (s : string) : string :=
  match s with
  | EmptyString => EmptyString
  | String c r => if Ascii.eqb c " "%char then EmptyString else String c (first_word r)
  end.

(** The keys of a scores record in the order [Object.entries] lists
    them. *)
Definition score_keys : list Trait.t :=
  [Trait.E; Trait.A; Trait.C; Trait.N; Trait.O].

(** The cells of the score grid, label and value, none while the memo is
    [null]:
    [scores && Object.entries(scores).map(([key, val]) => ...)]. *)
Definition score_cells (memo : option Scores.t) : list (string * string) :=
  match memo with
  | None => []
  | Some sc =>
      (λ T, (first_word (TRAIT_NAMES T), toFixed1 (Scores.get T sc))) <$> score_keys
  end.

(** [scores?.T || 0]: zero for a [null] memo and for the falsy numbers
    [NaN] and zero. *)
Definition radar_value (memo : option Scores.t) (T : Trait.t) : number :=
  match memo with
  | None => num_of_Z 0
  | Some sc =>
      match Scores.get T sc with
      | NaN => num_of_Z 0
      | Num q => if decide (q = Q2Qc 0) then num_of_Z 0 else Num q
      end
  end.

(** The rows of the radar chart: subject, plotted value, [fullMark]. *)
Definition radar_data (memo : option Scores.t) : list (string * number * Z) :=
  [("外向性", radar_value memo Trait.E, 4);
   ("協調性", radar_value memo Trait.A, 4);
   ("誠実性", radar_value memo Trait.C, 4);
   ("神経症", radar_value memo Trait.N, 4);
   ("開放性", radar_value memo Trait.O, 4)].

(** The memo as a handler or the view reads it. *)
Definition memo (answers : gmap Z Z) : option Scores.t :=
  match scores answers with
  | Returns r => r
  | Throws => None
  end.

(** ** The trivia carousel ([App.tsx], [triviaIndex])

    [TRIVIA] is a non-empty table of [constants.ts]; only its length
    matters here and is a parameter. *)

(** [(prev + 1) % TRIVIA.length], the update of the interval and of
    [nextTrivia]. *)
Definition nextTrivia (TRIVIA_length : Z) (prev : Z) : Z :=
  Z.rem (prev + 1) TRIVIA_length.

(** The number of dots under the card: [TRIVIA.slice(0, 8).length]. *)
Definition trivia_dots (TRIVIA_length : Z) : Z := Z.min TRIVIA_length 8.

(** Whether dot [i] is the wide one: [i === triviaIndex % 8]. *)
Definition dot_is_wide (triviaIndex i : Z) : bool :=
  bool_decide (i = Z.rem triviaIndex 8).

(** ** Scores that in-range answers produce *)

(** One of 0, 0.5, 1, ..., 4. *)
Definition half_step (x : number) : Prop :=
  ∃ k : Z, 0 ≤ k ≤ 8 ∧ x = Num (Qc_of_Z k / Qc_of_Z 2)%Qc.

Definition half_steps (sc : Scores.t) : Prop :=
  ∀ T, half_step (Scores.get T sc).

(** What holds, beyond [invariant], of every world reached through the
    view: every answer is one of 0..4; the results view is only shown
    over a complete answer record; an error is the fixed message and is
    only held in the ready phase; and every request sent carried five
    scores that are half steps. *)
Definition view_invariant (w : World) : Prop :=
  invariant w
  ∧ map_Forall (λ _ v, 0 ≤ v ≤ 4) (answers (app w))
  ∧ (showResults (app w) = true → size (answers (app w)) = 10%nat)
  ∧ (∀ m, error (app w) = Some m → m = ERROR_MESSAGE ∧ phase (app w) = Ready)
  ∧ Forall half_steps (requests w).

(** ** Sequences of answers, and further example data *)

(** Answers submitted one after another, first to last. *)
Definition answer_all (l : list (Z * Z)) (answers : gmap Z Z) : gmap Z Z :=
  foldl (λ a iv, handleAnswer iv.1 iv.2 a) answers l.

(** A record of ten keys that are not the ten catalog ids: question 1
    is missing and a key 11 is present. *)
Definition shifted_answers : gmap Z Z :=
  list_to_map [(2, 4); (3, 4); (4, 0); (5, 4); (6, 0); (7, 0);
               (8, 0); (9, 0); (10, 0); (11, 3)].

(** The scores of the scenario. *)
Definition scenario_record : Scores.t :=
  {| Scores.E := num_of_Z 4; Scores.A := num_of_Z 4; Scores.C := num_of_Z 4;
     Scores.N := num_of_Z 2; Scores.O := num_of_Z 4 |}.

(** The submit button clicked and the call rejected. *)
Definition failed : World := run (scenario_events ++ [Run; Settle Rejected]) boot.

(** * Properties *)

(** ** [JSON.parse]: the fuel is enough *)

Module JSONFacts.
Import JSON.

#[local] Abbreviation len := List.length.

Lemma skip_ws_length (cs : list ascii) : (len (skip_ws cs) ≤ len cs)%nat.
Proof.
  induction cs as [ | c cs IH]; simpl; [lia | ].
  destruct (is_ws c); simpl; lia.
Qed.

Lemma strip_length (prefix cs r : list ascii) :
  strip prefix cs = Some r → (len r ≤ len cs)%nat.
Proof.
  revert cs. induction prefix as [ | p prefix IH]; intros cs H.
  - simpl in H. by simplify_eq.
  - destruct cs as [ | c cs]; simpl in H; [done | ].
    destruct (Ascii.eqb p c); [ | done]. apply IH in H. simpl. lia.
Qed.

Lemma digits_length (cs ds r : list ascii) :
  digits cs = (ds, r) → len cs = (len ds + len r)%nat.
Proof.
  revert ds r. induction cs as [ | c cs IH]; intros ds r H; simpl in *.
  - by simplify_eq.
  - destruct (is_digit c).
    + destruct (digits cs) as [ds' r'] eqn:E. simplify_eq.
      specialize (IH _ _ eq_refl). simpl. lia.
    + simplify_eq. simpl. lia.
Qed.

Lemma parse_chars_length (n : nat) (cs acc : list ascii) (s : string) (r : list ascii) :
  (len cs ≤ n)%nat →
  parse_chars cs acc = Some (s, r) → (len r < len cs)%nat.
Proof.
  revert cs acc. induction n as [ | n IH]; intros cs acc Hn H.
  - destruct cs; simpl in *; [done | lia].
  - destruct cs as [ | c cs]; simpl in *; [done | ].
    repeat case_match; simplify_eq; simpl in *; try lia;
      match goal with
      | H : parse_chars _ _ = Some _ |- _ => apply IH in H; simpl in *; lia
      end.
Qed.

Lemma parse_number_length (cs : list ascii) (s : string) (r : list ascii) :
  parse_number cs = Some (s, r) → (len r < len cs)%nat.
Proof.
  unfold parse_number. intros H.
  repeat case_match; simplify_eq;
    repeat match goal with
    | H : digits _ = _ |- _ => apply digits_length in H
    end; simpl in *; lia.
Qed.

Lemma parse_scalar_length (c : ascii) (r : list ascii) (v : value) (r' : list ascii) :
  parse_scalar c r = Some (v, r') → (len r' ≤ len r)%nat.
Proof.
  unfold parse_scalar. intros H.
  repeat case_match; simplify_eq;
    repeat match goal with
    | H : parse_chars _ _ = Some _ |- _ => apply (parse_chars_length _ _ _ _ _ (Nat.le_refl _)) in H
    | H : strip _ _ = Some _ |- _ => apply strip_length in H
    | H : parse_number _ = Some _ |- _ => apply parse_number_length in H
    end; simpl in *; lia.
Qed.

Lemma opened_length (close : ascii) (r : list ascii) (b : bool) (r' : list ascii) :
  opened close r = Some (b, r') → (len r' ≤ len r)%nat.
Proof.
  unfold opened. intros H. pose proof (skip_ws_length r) as Hws.
  destruct (skip_ws r) as [ | c t]; [done | ].
  destruct (Ascii.eqb c close); simplify_eq; simpl in *; lia.
Qed.

Lemma separator_length (close : ascii) (cs : list ascii) (b : bool) (r : list ascii) :
  separator close cs = Some (b, r) → (len r < len cs)%nat.
Proof.
  unfold separator. intros H. pose proof (skip_ws_length cs) as Hws.
  destruct (skip_ws cs) as [ | c t]; [done | ].
  repeat case_match; simplify_eq; simpl in *; lia.
Qed.

Lemma parse_key_length (cs : list ascii) (key : string) (r : list ascii) :
  parse_key cs = Some (key, r) → (len r < len cs)%nat.
Proof.
  unfold parse_key. intros H. pose proof (skip_ws_length cs) as Hws.
  destruct (skip_ws cs) as [ | c t]; [done | ].
  destruct (Ascii.eqb c quote); [ | done].
  destruct (parse_chars t []) as [[k r1] | ] eqn:Hk; [ | done].
  apply (parse_chars_length _ _ _ _ _ (Nat.le_refl _)) in Hk.
  pose proof (skip_ws_length r1) as Hws1.
  destruct (skip_ws r1) as [ | c1 r2]; [done | ].
  destruct (Ascii.eqb c1 ":"%char); simplify_eq. simpl in *. lia.
Qed.


(** What a successful call leaves is shorter than what it was given. *)
Lemma parse_consumes (f : nat) :
  (∀ cs v r, parse_value f cs = Some (v, r) → (len r < len cs)%nat)
  ∧ (∀ cs acc v r, parse_elements f cs acc = Some (v, r) → (len r < len cs)%nat)
  ∧ (∀ cs acc v r, parse_members f cs acc = Some (v, r) → (len r < len cs)%nat).
Proof.
  induction f as [ | f (IHv & IHe & IHm)]; [by repeat split | ].
  repeat split.
  - intros cs v r H. cbn [parse_value] in H.
    pose proof (skip_ws_length cs) as Hws.
    destruct (skip_ws cs) as [ | c t]; [done | ]. simpl in Hws.
    destruct (Ascii.eqb c "{"%char).
    { destruct (opened "}"%char t) as [[[ | ] t'] | ] eqn:Ho; [ | | done];
        apply opened_length in Ho; [simplify_eq; lia | ].
      apply IHm in H. lia. }
    destruct (Ascii.eqb c "["%char).
    { destruct (opened "]"%char t) as [[[ | ] t'] | ] eqn:Ho; [ | | done];
        apply opened_length in Ho; [simplify_eq; lia | ].
      apply IHe in H. lia. }
    apply parse_scalar_length in H. lia.
  - intros cs acc v r H. cbn [parse_elements] in H.
    destruct (parse_value f cs) as [[v1 r1] | ] eqn:Hv; [ | done].
    apply IHv in Hv.
    destruct (separator "]"%char r1) as [[[ | ] r2] | ] eqn:Hs; [ | | done];
      apply separator_length in Hs; [ | simplify_eq; lia].
    apply IHe in H. lia.
  - intros cs acc v r H. cbn [parse_members] in H.
    destruct (parse_key cs) as [[key r0] | ] eqn:Hk; [ | done].
    apply parse_key_length in Hk.
    destruct (parse_value f r0) as [[v1 r1] | ] eqn:Hv; [ | done].
    apply IHv in Hv.
    destruct (separator "}"%char r1) as [[[ | ] r2] | ] eqn:Hs; [ | | done];
      apply separator_length in Hs; [ | simplify_eq; lia].
    apply IHm in H. lia.
Qed.

(** A result obtained with some fuel is obtained with any fuel above
    twice the length of the input. *)
Lemma parse_settled (f : nat) :
  (∀ cs res, parse_value f cs = Some res →
     ∀ g, (2 * len cs + 1 ≤ g)%nat → parse_value g cs = Some res)
  ∧ (∀ cs acc res, parse_elements f cs acc = Some res →
     ∀ g, (2 * len cs + 2 ≤ g)%nat → parse_elements g cs acc = Some res)
  ∧ (∀ cs acc res, parse_members f cs acc = Some res →
     ∀ g, (2 * len cs + 2 ≤ g)%nat → parse_members g cs acc = Some res).
Proof.
  induction f as [ | f (IHv & IHe & IHm)]; [by repeat split | ].
  destruct (parse_consumes f) as (Cv & Ce & Cm).
  repeat split.
  - intros cs res H [ | g] Hg; [lia | ]. cbn [parse_value] in *.
    pose proof (skip_ws_length cs) as Hws.
    destruct (skip_ws cs) as [ | c t]; [done | ]. simpl in Hws.
    destruct (Ascii.eqb c "{"%char).
    { destruct (opened "}"%char t) as [[[ | ] t'] | ] eqn:Ho; [done | | done].
      apply opened_length in Ho. apply (IHm _ _ _ H). lia. }
    destruct (Ascii.eqb c "["%char); [ | done].
    destruct (opened "]"%char t) as [[[ | ] t'] | ] eqn:Ho; [done | | done].
    apply opened_length in Ho. apply (IHe _ _ _ H). lia.
  - intros cs acc res H [ | g] Hg; [lia | ]. cbn [parse_elements] in *.
    destruct (parse_value f cs) as [[v1 r1] | ] eqn:Hv; [ | done].
    rewrite (IHv _ _ Hv g) by lia. apply Cv in Hv.
    destruct (separator "]"%char r1) as [[[ | ] r2] | ] eqn:Hs; [ | done | done].
    apply separator_length in Hs. apply (IHe _ _ _ H). lia.
  - intros cs acc res H [ | g] Hg; [lia | ]. cbn [parse_members] in *.
    destruct (parse_key cs) as [[key r0] | ] eqn:Hk; [ | done].
    apply parse_key_length in Hk.
    destruct (parse_value f r0) as [[v1 r1] | ] eqn:Hv; [ | done].
    rewrite (IHv _ _ Hv g) by lia. apply Cv in Hv.
    destruct (separator "}"%char r1) as [[[ | ] r2] | ] eqn:Hs; [ | done | done].
    apply separator_length in Hs. apply (IHm _ _ _ H). lia.
Qed.

(** The fuel [parse] supplies is enough: whatever the parser produces
    with any amount of fuel, it produces with that much. *)
Lemma parse_value_enough_fuel (f : nat) (cs : list ascii) (res : value * list ascii) :
  parse_value f cs = Some res →
  parse_value (2 * len cs + 2) cs = Some res.
Proof.
  intros H. destruct (parse_settled f) as (Hv & _). apply (Hv _ _ H). lia.
Qed.

(** [parse] fails only on a text that the grammar rejects, never for want
    of fuel. *)
Lemma parse_Some_iff (text : string) (v : value) :
  parse text = Some v
  ↔ ∃ f r, parse_value f (list_ascii_of_string text) = Some (v, r)
           ∧ skip_ws r = [].
Proof.
  unfold parse. split.
  - intros H.
    destruct (parse_value _ (list_ascii_of_string text)) as [[v' r] | ] eqn:Hv;
      [ | done].
    destruct (skip_ws r) eqn:Hr; [ | done]. simplify_eq. eauto.
  - intros (f & r & Hv & Hr).
    by rewrite (parse_value_enough_fuel _ _ _ Hv), Hr.
Qed.

End JSONFacts.

(** ** The catalog *)

Lemma elem_of_QUESTIONS (x : Question) :
  x ∈ QUESTIONS ↔ In x QUESTIONS.
Proof. apply list_elem_of_In. Qed.

(** Closed decidable facts, by evaluating their decision procedure. *)
Ltac decide_by_eval :=
  match goal with
  | |- ?P => apply (bool_decide_unpack P); vm_compute; exact I
  end.

Ltac each_question H :=
  apply elem_of_QUESTIONS in H; simpl in H;
  repeat (destruct H as [H | H]; [subst | ]); [.. | contradiction].

Lemma posQ_unique (T : Trait.t) (x : Question) :
  x ∈ QUESTIONS → trait x = T → isPositive x = true → posQ T = Some x.
Proof.
  intros Hin HT Hpos. each_question Hin; simpl in *; try discriminate;
    reflexivity.
Qed.

Lemma negQ_unique (T : Trait.t) (x : Question) :
  x ∈ QUESTIONS → trait x = T → isPositive x = false → negQ T = Some x.
Proof.
  intros Hin HT Hpos. each_question Hin; simpl in *; try discriminate;
    reflexivity.
Qed.

Lemma posQ_found (T : Trait.t) :
  ∃ x, posQ T = Some x ∧ x ∈ QUESTIONS ∧ trait x = T ∧ isPositive x = true.
Proof.
  destruct T; eexists; (split; [reflexivity | ]);
    (split; [apply elem_of_QUESTIONS; simpl; tauto | split; reflexivity]).
Qed.

Lemma negQ_found (T : Trait.t) :
  ∃ x, negQ T = Some x ∧ x ∈ QUESTIONS ∧ trait x = T ∧ isPositive x = false.
Proof.
  destruct T; eexists; (split; [reflexivity | ]);
    (split; [apply elem_of_QUESTIONS; simpl; tauto | split; reflexivity]).
Qed.

Lemma QUESTIONS_ids_NoDup : NoDup (id <$> QUESTIONS).
Proof. decide_by_eval. Qed.

(** C10: the catalog is a list of exactly ten questions whose ids are
    1..10 in order, hence unique, and every trait has exactly two
    questions, the first of positive and the second of negative polarity,
    so exactly one of each. *)
Theorem QUESTIONS_valid :
  List.length QUESTIONS = 10%nat
  ∧ id <$> QUESTIONS = [1; 2; 3; 4; 5; 6; 7; 8; 9; 10]
  ∧ NoDup (id <$> QUESTIONS)
  ∧ ∀ T : Trait.t,
      List.length (filter (λ x, trait x = T) QUESTIONS) = 2%nat
      ∧ List.length (filter (λ x, trait x = T ∧ isPositive x = true) QUESTIONS) = 1%nat
      ∧ List.length (filter (λ x, trait x = T ∧ isPositive x = false) QUESTIONS) = 1%nat.
Proof.
  split; [reflexivity | ]. split; [reflexivity | ].
  split; [exact QUESTIONS_ids_NoDup | ].
  intros T. destruct T; repeat split; reflexivity.
Qed.

(** ** The scorer *)

Lemma two_nonzero : Qc_of_Z 2 ≠ Q2Qc 0.
Proof. intros H. apply (f_equal this) in H. discriminate H. Qed.

Lemma Num_canon (x y : Qc) : (x == y)%Q → Num x = Num y.
Proof. intros H. f_equal. by apply Qc_is_canon. Qed.

Lemma calculateTrait_total (answers : gmap Z Z) (T : Trait.t) :
  ∃ v, calculateTrait answers T = Returns v.
Proof.
  destruct (posQ_found T) as (pq & Hp & _), (negQ_found T) as (nq & Hn & _).
  unfold calculateTrait. rewrite Hp, Hn. eauto.
Qed.

Lemma scores_null (answers : gmap Z Z) :
  (size answers < 10)%nat → scores answers = Returns None.
Proof. intros H. unfold scores. case_decide; [done | lia]. Qed.

Lemma scores_defined (answers : gmap Z Z) :
  (10 ≤ size answers)%nat →
  ∃ sc, scores answers = Returns (Some sc)
        ∧ ∀ T, calculateTrait answers T = Returns (Scores.get T sc).
Proof.
  intros H. unfold scores. case_decide; [lia | ].
  destruct (calculateTrait_total answers Trait.E) as [e He],
    (calculateTrait_total answers Trait.A) as [a Ha],
    (calculateTrait_total answers Trait.C) as [c Hc],
    (calculateTrait_total answers Trait.N) as [n Hn],
    (calculateTrait_total answers Trait.O) as [o Ho].
  exists (Scores.mk e a c n o). rewrite He, Ha, Hc, Hn, Ho.
  split; [reflexivity | ]. intros T. by destruct T.
Qed.

(** The memo never throws: it is [null] or a record of five numbers. *)
Lemma scores_returns (answers : gmap Z Z) :
  ∃ r, scores answers = Returns r.
Proof.
  destruct (decide (size answers < 10)%nat) as [H | H].
  - exists None. by apply scores_null.
  - destruct (scores_defined answers) as (sc & Hsc & _); [lia | eauto].
Qed.

Lemma small_answer (z : Z) :
  0 ≤ z ≤ 4 → z = 0 ∨ z = 1 ∨ z = 2 ∨ z = 3 ∨ z = 4.
Proof. lia. Qed.

(** C1: for a trait whose positive question is answered [p] and whose
    negative question is answered [n], both integers in 0..4, the scorer
    returns [(p + (4 - n)) / 2] for the trait, also as the trait's field
    of the memo once it is defined; the value lies in 0..4; and answers
    (0,4), (4,0), (2,2) give 0, 4 and 2. *)
Theorem calculateTrait_formula (answers : gmap Z Z) (T : Trait.t)
    (qp qn : Question) (p n : Z) :
  qp ∈ QUESTIONS → trait qp = T → isPositive qp = true →
  qn ∈ QUESTIONS → trait qn = T → isPositive qn = false →
  answers !! id qp = Some p → answers !! id qn = Some n →
  0 ≤ p ≤ 4 → 0 ≤ n ≤ 4 →
  let v := ((Qc_of_Z p + (Qc_of_Z 4 - Qc_of_Z n)) / Qc_of_Z 2)%Qc in
  calculateTrait answers T = Returns (Num v)
  ∧ ((10 ≤ size answers)%nat →
      ∃ sc, scores answers = Returns (Some sc) ∧ Scores.get T sc = Num v)
  ∧ (Qc_of_Z 0 ≤ v)%Qc ∧ (v ≤ Qc_of_Z 4)%Qc
  ∧ (p = 0 → n = 4 → v = Qc_of_Z 0)
  ∧ (p = 4 → n = 0 → v = Qc_of_Z 4)
  ∧ (p = 2 → n = 2 → v = Qc_of_Z 2).
Proof.
  intros Hqp HTp Hpos Hqn HTn Hneg Hp Hn Hpr Hnr v.
  assert (Hcalc : calculateTrait answers T = Returns (Num v)).
  { unfold calculateTrait.
    rewrite (posQ_unique T qp), (negQ_unique T qn) by done.
    rewrite Hp, Hn. simpl. unfold num_div, num_of_Z.
    destruct (decide (Qc_of_Z 2 = Q2Qc 0)) as [H0 | _]; [ | reflexivity].
    by destruct two_nonzero. }
  split; [exact Hcalc | ]. split.
  { intros Hsize. destruct (scores_defined answers Hsize) as (sc & Hsc & Hget).
    exists sc. split; [exact Hsc | ].
    specialize (Hget T). rewrite Hcalc in Hget. by injection Hget. }
  subst v.
  destruct (small_answer p Hpr) as [-> | [-> | [-> | [-> | ->]]]];
    destruct (small_answer n Hnr) as [-> | [-> | [-> | [-> | ->]]]];
    (split; [by vm_compute | ]); (split; [by vm_compute | ]);
    repeat split; intros; try lia; by apply Qc_is_canon.
Qed.

Lemma calculateTrait_formula_witness :
  calculateTrait scenario_answers Trait.E
  = Returns (Num ((Qc_of_Z 4 + (Qc_of_Z 4 - Qc_of_Z 0)) / Qc_of_Z 2)%Qc).
Proof.
  eapply proj1, (calculateTrait_formula scenario_answers Trait.E _ _ 4 0).
  - apply list_elem_of_here.
  - reflexivity.
  - reflexivity.
  - do 5 apply list_elem_of_further. apply list_elem_of_here.
  - reflexivity.
  - reflexivity.
  - vm_compute. reflexivity.
  - vm_compute. reflexivity.
  - lia.
  - lia.
Defined.

Lemma scenario_size : size scenario_answers = 10%nat.
Proof. vm_compute. reflexivity. Qed.

(** C5, as stated, fails: on the scenario's answers the memo is defined,
    but not every trait scores 4, since trait N has both its questions
    answered 0. *)
Lemma scenario_not_all_four :
  ¬ ∃ sc, scores scenario_answers = Returns (Some sc)
          ∧ ∀ T, Scores.get T sc = num_of_Z 4.
Proof.
  intros (sc & Hsc & Hall).
  destruct (scores_defined scenario_answers) as (sc' & Hsc' & Hget).
  { rewrite scenario_size. lia. }
  rewrite Hsc in Hsc'. injection Hsc' as <-.
  specialize (Hget Trait.N). rewrite (Hall Trait.N) in Hget.
  vm_compute in Hget. injection Hget as Hthis. discriminate Hthis.
Qed.

(** C5, amended: on the scenario's answers the scorer yields 4 for E, A,
    C and O, and 2 for N. *)
Theorem scenario_scores :
  scores scenario_answers
  = Returns (Some {| Scores.E := num_of_Z 4; Scores.A := num_of_Z 4;
                     Scores.C := num_of_Z 4; Scores.N := num_of_Z 2;
                     Scores.O := num_of_Z 4 |}).
Proof.
  unfold scores. case_decide as Hsize; [rewrite scenario_size in Hsize; lia | ].
  unfold calculateTrait, num_of_Z. simpl.
  repeat (rewrite decide_False by apply two_nonzero); simpl.
  unfold mret, completion_ret. do 2 f_equal.
  f_equal; apply Num_canon; reflexivity.
Qed.

(** ** Answering *)

(** C9: an answer overwrites the earlier answer of the same id, whatever
    it was, and leaves every other id as it was; submitting the same value
    twice gives the same record, hence the same scores, as submitting it
    once. *)
Theorem handleAnswer_last_write_wins (answers : gmap Z Z) (i v v' : Z) :
  handleAnswer i v (handleAnswer i v' answers) !! i = Some v
  ∧ handleAnswer i v (handleAnswer i v' answers) = handleAnswer i v answers
  ∧ (∀ j, handleAnswer i v answers !! j
          = if decide (j = i) then Some v else answers !! j)
  ∧ handleAnswer i v (handleAnswer i v answers) = handleAnswer i v answers
  ∧ scores (handleAnswer i v (handleAnswer i v answers))
    = scores (handleAnswer i v answers).
Proof.
  unfold handleAnswer. repeat split.
  - apply lookup_insert_eq.
  - apply insert_insert_eq.
  - intros j. rewrite lookup_insert. destruct (decide (i = j)), (decide (j = i)); congruence.
  - apply insert_insert_eq.
  - by rewrite insert_insert_eq.
Qed.

(** ** The completeness gate *)

Lemma question_ids_size : size question_ids = 10%nat.
Proof.
  unfold question_ids. rewrite size_list_to_set; [reflexivity | ].
  exact QUESTIONS_ids_NoDup.
Qed.

Lemma elem_of_question_ids (i : Z) :
  i ∈ question_ids ↔ ∃ x, x ∈ QUESTIONS ∧ id x = i.
Proof.
  unfold question_ids. rewrite elem_of_list_to_set, list_elem_of_fmap.
  naive_solver.
Qed.

Lemma complete_iff (answers : gmap Z Z) :
  dom answers ⊆ question_ids →
  (10 ≤ size answers)%nat ↔ ∀ x, x ∈ QUESTIONS → is_Some (answers !! id x).
Proof.
  intros Hdom. split.
  - intros Hsize x Hx. apply elem_of_dom.
    assert (Heq : dom answers = question_ids).
    { apply set_subseteq_size_eq; [done | ].
      rewrite size_dom, question_ids_size. lia. }
    rewrite Heq. apply elem_of_question_ids. eauto.
  - intros Hall. rewrite <- question_ids_size, <- (size_dom answers).
    apply subseteq_size. intros i Hi.
    apply elem_of_question_ids in Hi as (x & Hx & <-).
    apply elem_of_dom. by apply Hall.
Qed.

Lemma scores_null_iff (answers : gmap Z Z) :
  scores answers = Returns None ↔ (size answers < 10)%nat.
Proof.
  split; [ | apply scores_null].
  intros Hnull. destruct (decide (size answers < 10)%nat) as [ | Hge]; [done | ].
  destruct (scores_defined answers) as (sc & Hsc & _); [lia | congruence].
Qed.

Lemma scores_some_iff (answers : gmap Z Z) :
  (∃ sc, scores answers = Returns (Some sc)) ↔ (10 ≤ size answers)%nat.
Proof.
  split.
  - intros [sc Hsc]. destruct (decide (10 ≤ size answers)%nat) as [ | Hlt]; [done | ].
    rewrite scores_null in Hsc by lia. discriminate Hsc.
  - intros Hge. destruct (scores_defined answers Hge) as (sc & Hsc & _). eauto.
Qed.

Lemma handleAnswer_dom (answers : gmap Z Z) (i v : Z) :
  dom answers ⊆ question_ids → i ∈ question_ids →
  dom (handleAnswer i v answers) ⊆ question_ids.
Proof.
  intros Hdom Hi. unfold handleAnswer. rewrite dom_insert_L.
  apply union_subseteq. split; [by apply singleton_subseteq_l | done].
Qed.

(** C4: for an answer record over the catalog's ids, the memo is absent
    exactly while some question of the catalog has no answer and is a
    record of scores exactly when all ten have one; answering an id that
    already has an answer changes neither; and from an absent memo, an
    answer makes it defined exactly when it is for an id not answered
    before and nine ids were answered, that is, when it is the tenth
    distinct id. *)
Theorem scores_completeness_gate (answers : gmap Z Z) (i v : Z) :
  dom answers ⊆ question_ids → i ∈ question_ids →
  (scores answers = Returns None
     ↔ ∃ x, x ∈ QUESTIONS ∧ answers !! id x = None)
  ∧ ((∃ sc, scores answers = Returns (Some sc))
     ↔ ∀ x, x ∈ QUESTIONS → is_Some (answers !! id x))
  ∧ (is_Some (answers !! i) →
     size (handleAnswer i v answers) = size answers
     ∧ (scores (handleAnswer i v answers) = Returns None
        ↔ scores answers = Returns None))
  ∧ (scores answers = Returns None →
     ((∃ sc, scores (handleAnswer i v answers) = Returns (Some sc))
      ↔ answers !! i = None ∧ size answers = 9%nat)).
Proof.
  intros Hdom Hi.
  assert (Hsome := scores_some_iff answers).
  assert (Hcomplete := complete_iff answers Hdom).
  split; [ | split; [ | split]].
  - rewrite scores_null_iff. split.
    + intros Hlt.
      destruct (decide (Exists (λ x, answers !! id x = None) QUESTIONS))
        as [Hex | Hno]; [apply list.Exists_exists in Hex; exact Hex | ].
      assert (10 ≤ size answers)%nat; [ | lia].
      apply Hcomplete. intros x Hx.
      destruct (answers !! id x) eqn:Hlk; [eauto | ].
      destruct Hno. apply list.Exists_exists. eauto.
    + intros (x & Hx & Hnone).
      destruct (decide (size answers < 10)%nat) as [ | Hge]; [done | ].
      assert (Hall : is_Some (answers !! id x)) by (apply Hcomplete; [lia | done]).
      rewrite Hnone in Hall. by destruct Hall.
  - by rewrite Hsome.
  - intros Hanswered.
    assert (Hsize : size (handleAnswer i v answers) = size answers)
      by (by apply map_size_insert_Some).
    split; [exact Hsize | ]. by rewrite !scores_null_iff, Hsize.
  - intros Hnull. apply scores_null_iff in Hnull.
    rewrite scores_some_iff. unfold handleAnswer. rewrite map_size_insert.
    destruct (answers !! i) eqn:Hlk; unfold Datatypes.id; split.
    + lia.
    + intros [? _]. discriminate.
    + intros ?. split; [done | lia].
    + intros [_ ->]. lia.
Qed.

Lemma scores_completeness_gate_witness :
  scores (delete 10 scenario_answers) = Returns None
  ∧ ∃ sc, scores (handleAnswer 10 0 (delete 10 scenario_answers)) = Returns (Some sc).
Proof.
  assert (Hdom : dom (delete 10 scenario_answers) ⊆ question_ids).
  { decide_by_eval. }
  assert (Hi : 10 ∈ question_ids).
  { decide_by_eval. }
  destruct (scores_completeness_gate (delete 10 scenario_answers) 10 0 Hdom Hi)
    as (Hgate & _ & _ & Htenth).
  assert (Hnull : scores (delete 10 scenario_answers) = Returns None).
  { apply Hgate. eexists. split.
    - do 9 apply list_elem_of_further. apply list_elem_of_here.
    - vm_compute. reflexivity. }
  split; [exact Hnull | ].
  apply (Htenth Hnull). split; vm_compute; reflexivity.
Defined.

(** ** The session: handlers *)

Lemma runAnalysis_sends (s : App) (sc : Scores.t) :
  scores (answers s) = Returns (Some sc) →
  runAnalysis s = (setError None (setIsAnalyzing true s), Some sc).
Proof. intros H. unfold runAnalysis. by rewrite H. Qed.

Lemma runAnalysis_idle (s : App) :
  scores (answers s) = Returns None → runAnalysis s = (s, None).
Proof. intros H. unfold runAnalysis. by rewrite H. Qed.

(** ** The session as the view drives it *)

Lemma answered_all_keeps_size (answers : gmap Z Z) (i v : Z) :
  dom answers ⊆ question_ids → i ∈ question_ids →
  size answers = 10%nat → size (handleAnswer i v answers) = 10%nat.
Proof.
  intros Hdom Hi Hsize. unfold handleAnswer.
  rewrite map_size_insert_Some; [done | ].
  apply elem_of_dom.
  replace (dom answers) with question_ids; [done | ].
  symmetry. apply set_subseteq_size_eq; [done | ].
  rewrite size_dom, question_ids_size. lia.
Qed.

Lemma offered_Answer (w : World) (i v : Z) :
  offered w (Answer i v) = true →
  showResults (app w) = false ∧ i ∈ question_ids ∧ 0 ≤ v ≤ 4.
Proof.
  simpl. rewrite !andb_true_iff, negb_true_iff, !bool_decide_eq_true. tauto.
Qed.

Lemma offered_Run (w : World) :
  offered w Run = true →
  showResults (app w) = false ∧ isAnalyzing (app w) = false
  ∧ size (answers (app w)) = 10%nat.
Proof.
  simpl. unfold allAnswered.
  rewrite !andb_true_iff, !negb_true_iff, bool_decide_eq_true. tauto.
Qed.

Lemma offered_Settle (w : World) (r : Response) :
  offered w (Settle r) = true → (0 < inflight w)%nat.
Proof. simpl. by rewrite bool_decide_eq_true. Qed.

Lemma step_invariant (w : World) (e : Event) :
  invariant w → offered w e = true → invariant (dispatch e w).
Proof.
  intros (Hdom & Hfl & Hres & Hana & Hsize) Hoff.
  destruct e as [i v | | | r].
  - apply offered_Answer in Hoff as (Hshow & Hi & _).
    destruct w as [[a ia an er sr] n rq]; simpl in *.
    repeat split; try done.
    + by apply handleAnswer_dom.
    + intros Hia. apply answered_all_keeps_size; auto.
  - apply offered_Run in Hoff as (Hshow & Hidle & Hten).
    destruct (scores_defined (answers (app w))) as (sc & Hsc & _); [lia | ].
    simpl. rewrite (runAnalysis_sends _ _ Hsc).
    destruct w as [[a ia an er sr] n rq]; simpl in *. subst ia.
    repeat split; simpl; try done; [by rewrite Hfl | congruence].
  - simpl in Hoff. specialize (Hres Hoff).
    destruct w as [[a ia an er sr] n rq]; simpl in *. subst ia.
    repeat split; try done.
  - apply offered_Settle in Hoff.
    destruct w as [[a ia an er sr] n rq]; simpl in *.
    destruct ia; [ | lia]. subst n.
    destruct sr; [by specialize (Hres eq_refl) | ].
    specialize (Hana eq_refl). subst an.
    unfold runAnalysis_resume.
    destruct r as [ | text]; simpl; [by repeat split | ].
    destruct (JSON.parse (text_or_default text)); simpl; by repeat split.
Qed.

Lemma reachable_invariant (w : World) : reachable w → invariant w.
Proof.
  induction 1 as [ | w e _ IH Hoff].
  - by repeat split.
  - by apply step_invariant.
Qed.

Lemma reachable_run (es : list Event) (w : World) :
  reachable w → offered_all es w = true → reachable (run es w).
Proof.
  revert w. induction es as [ | e es IH]; intros w Hw Hall; [exact Hw | ].
  simpl in Hall. apply andb_true_iff in Hall as [He Hes].
  apply (IH (dispatch e w)); [ | exact Hes].
  by apply reachable_step.
Defined.

Lemma in_flight_reachable : reachable in_flight.
Proof.
  apply reachable_run; [apply reachable_boot | ].
  vm_compute. reflexivity.
Defined.

Lemma in_flight_awaits : (0 < inflight in_flight)%nat.
Proof. vm_compute. lia. Defined.

(** ** Single flight *)

(** C3, as stated, fails: [runAnalysis] does not look at the in-flight
    flag.  Called again while the first call is awaited it is no no-op:
    a second request is sent and two calls are awaited. *)
Lemma runAnalysis_twice_sends_twice :
  isAnalyzing (app in_flight) = true
  ∧ inflight in_flight = 1%nat
  ∧ dispatch Run in_flight ≠ in_flight
  ∧ inflight (dispatch Run in_flight) = 2%nat
  ∧ List.length (requests (dispatch Run in_flight)) = 2%nat.
Proof.
  assert (H2 : inflight (dispatch Run in_flight) = 2%nat)
    by (vm_compute; reflexivity).
  assert (H1 : inflight in_flight = 1%nat) by (vm_compute; reflexivity).
  split; [vm_compute; reflexivity | ]. split; [exact H1 | ].
  split; [ | split; [exact H2 | vm_compute; reflexivity]].
  intros Heq. rewrite Heq, H1 in H2. discriminate H2.
Qed.

(** C3, amended: in every world reached through the view at most one
    call is awaited, and one is awaited exactly while [isAnalyzing]; the
    view does not offer the submit button then; a click on the offered
    button sends exactly one request, after which the button is not
    offered.  [runAnalysis] itself sends a request whenever the scores
    are defined, whatever the flag. *)
Theorem single_flight_by_view (w : World) :
  reachable w →
  (inflight w ≤ 1)%nat
  ∧ (inflight w = 1%nat ↔ isAnalyzing (app w) = true)
  ∧ (isAnalyzing (app w) = true → offered w Run = false)
  ∧ (offered w Run = true →
     inflight (dispatch Run w) = 1%nat
     ∧ List.length (requests (dispatch Run w)) = S (List.length (requests w))
     ∧ offered (dispatch Run w) Run = false)
  ∧ (∀ sc, scores (answers (app w)) = Returns (Some sc) →
     inflight (dispatch Run w) = S (inflight w)
     ∧ requests (dispatch Run w) = sc :: requests w).
Proof.
  intros Hw. destruct (reachable_invariant w Hw) as (_ & Hfl & _).
  split; [destruct (isAnalyzing (app w)); lia | ].
  split; [destruct (isAnalyzing (app w)); split; (done || lia) | ].
  split.
  { intros Hia. simpl. rewrite Hia. by rewrite andb_false_r. }
  split.
  - intros Hoff. apply offered_Run in Hoff as (Hshow & Hidle & Hten).
    destruct (scores_defined (answers (app w))) as (sc & Hsc & _); [lia | ].
    simpl. rewrite (runAnalysis_sends _ _ Hsc). simpl.
    rewrite Hfl, Hidle. repeat split. by rewrite andb_false_r.
  - intros sc Hsc. simpl. by rewrite (runAnalysis_sends _ _ Hsc).
Qed.

Lemma single_flight_by_view_witness :
  (inflight in_flight ≤ 1)%nat ∧ offered in_flight Run = false.
Proof.
  destruct (single_flight_by_view in_flight in_flight_reachable)
    as (Hle & _ & Hhidden & _).
  split; [exact Hle | ]. apply Hhidden. vm_compute. reflexivity.
Defined.

(** ** Failure of the call *)

Lemma runAnalysis_resume_caught (s : App) :
  runAnalysis_resume Rejected s
  = setIsAnalyzing false (setError (Some ERROR_MESSAGE) s).
Proof. reflexivity. Qed.

(** C7: when the awaited call of a session driven through the view
    rejects, the one fixed message is stored as the error, the in-flight
    flag is cleared and no call is awaited, the result stays absent, and
    the answers and hence the scores are as they were, still defined; the
    submit button is offered again and a click on it sends a request with
    those same scores. *)
Theorem transport_failure_is_retryable (w : World) :
  reachable w → (0 < inflight w)%nat →
  let w' := dispatch (Settle Rejected) w in
  error (app w') = Some ERROR_MESSAGE
  ∧ isAnalyzing (app w') = false
  ∧ inflight w' = 0%nat
  ∧ analysis (app w) = None ∧ analysis (app w') = None
  ∧ answers (app w') = answers (app w)
  ∧ phase (app w') = Ready
  ∧ ∃ sc, scores (answers (app w)) = Returns (Some sc)
          ∧ scores (answers (app w')) = Returns (Some sc)
          ∧ offered w' Run = true
          ∧ requests (dispatch Run w') = sc :: requests w'
          ∧ inflight (dispatch Run w') = 1%nat
          ∧ isAnalyzing (app (dispatch Run w')) = true
          ∧ error (app (dispatch Run w')) = None.
Proof.
  intros Hw Hfl w'.
  destruct (reachable_invariant w Hw) as (Hdom & Hn & Hres & Hana & Hsize).
  destruct (isAnalyzing (app w)) eqn:Hia; [ | lia].
  specialize (Hsize eq_refl).
  destruct (showResults (app w)) eqn:Hshow; [by specialize (Hres eq_refl) | ].
  specialize (Hana eq_refl).
  destruct (scores_defined (answers (app w))) as (sc & Hsc & _); [lia | ].
  assert (Hsc' : scores (answers (app w')) = Returns (Some sc)) by exact Hsc.
  assert (Hoff : offered w' Run = true).
  { subst w'. simpl. unfold allAnswered. rewrite Hshow, Hsize. reflexivity. }
  assert (Hrun : dispatch Run w'
                 = {| app := setError None (setIsAnalyzing true (app w'));
                      inflight := S (inflight w');
                      requests := sc :: requests w' |}).
  { unfold dispatch at 1. by rewrite (runAnalysis_sends _ _ Hsc'). }
  split; [reflexivity | ]. split; [reflexivity | ].
  split; [subst w'; simpl; by rewrite Hn | ].
  split; [exact Hana | ]. split; [exact Hana | ]. split; [reflexivity | ].
  split.
  { subst w'. unfold phase, allAnswered. simpl. by rewrite Hshow, Hsize. }
  exists sc. rewrite Hrun. subst w'. simpl. by rewrite Hn.
Qed.

Lemma transport_failure_is_retryable_witness :
  error (app (dispatch (Settle Rejected) in_flight)) = Some ERROR_MESSAGE
  ∧ offered (dispatch (Settle Rejected) in_flight) Run = true.
Proof.
  destruct (transport_failure_is_retryable in_flight
              in_flight_reachable in_flight_awaits)
    as (Herr & _ & _ & _ & _ & _ & _ & sc & _ & _ & Hoff & _).
  split; [exact Herr | exact Hoff].
Defined.

(** ** A resolved call *)

(** C2, as stated, fails: a resolved response whose payload lacks [jobs]
    is not handled like a rejected call.  The parsed object, without
    [jobs], becomes the analysis, no error is stored and the results view
    is shown. *)
Lemma payload_without_jobs_is_displayed :
  let w := dispatch (Settle (Resolved (Some payload_without_jobs))) in_flight in
  (∃ result, analysis (app w) = Some result ∧ JSON.get "jobs" result = None)
  ∧ error (app w) = None
  ∧ showResults (app w) = true
  ∧ phase (app w) = Displaying
  ∧ offered w Run = false
  ∧ app w ≠ app (dispatch (Settle Rejected) in_flight).
Proof.
  assert (Herr : error (app (dispatch (Settle (Resolved (Some payload_without_jobs)))
                               in_flight)) = None) by (vm_compute; reflexivity).
  cbv zeta. split.
  { eexists. split; vm_compute; reflexivity. }
  split; [exact Herr | ].
  repeat (split; [vm_compute; reflexivity | ]).
  intros Heq. rewrite Heq in Herr. vm_compute in Herr. discriminate Herr.
Qed.

(** C2, amended: a resolved response is only parsed.  If its text (or
    the default text when it has none) parses, the parsed value is
    stored as the analysis whatever fields it has, the results view is
    shown, and the error is left as it was; only if it does not parse is
    the state the one a rejected call leaves: the message stored, the
    analysis and the answers untouched, the flag cleared. *)
Theorem resolved_payload_is_only_parsed (s : App) (text : option string) :
  (∀ result, JSON.parse (text_or_default text) = Some result →
     let s' := runAnalysis_resume (Resolved text) s in
     analysis s' = nullable result
     ∧ showResults s' = true
     ∧ phase s' = Displaying
     ∧ error s' = error s
     ∧ isAnalyzing s' = false
     ∧ answers s' = answers s)
  ∧ (JSON.parse (text_or_default text) = None →
     let s' := runAnalysis_resume (Resolved text) s in
     s' = runAnalysis_resume Rejected s
     ∧ error s' = Some ERROR_MESSAGE
     ∧ analysis s' = analysis s
     ∧ showResults s' = showResults s
     ∧ isAnalyzing s' = false
     ∧ answers s' = answers s).
Proof.
  split.
  - intros result Hparse. unfold runAnalysis_resume. rewrite Hparse.
    by repeat split.
  - intros Hparse. unfold runAnalysis_resume. rewrite Hparse.
    by repeat split.
Qed.

Lemma resolved_payload_is_only_parsed_witness :
  showResults (runAnalysis_resume (Resolved (Some payload_without_jobs)) initial) = true
  ∧ error (runAnalysis_resume (Resolved (Some "{")) initial) = Some ERROR_MESSAGE.
Proof.
  destruct (resolved_payload_is_only_parsed initial (Some payload_without_jobs))
    as [Hok _].
  destruct (resolved_payload_is_only_parsed initial (Some "{")) as [_ Hbad].
  split.
  - eapply Hok. vm_compute. reflexivity.
  - apply Hbad. vm_compute. reflexivity.
Defined.

(** ** Reset *)

Lemma displaying_reachable : reachable displaying.
Proof.
  apply reachable_run; [apply reachable_boot | ].
  vm_compute. reflexivity.
Defined.

(** C6: when [reset] runs while a call is awaited, the in-flight flag
    and the awaited call stay as they were; when that call then resolves
    with a text that parses, the parsed value is stored as the analysis
    of the cleared session and the results view is shown. *)
Theorem late_response_after_reset (w : World) (text : option string)
    (result : JSON.value) :
  (0 < inflight w)%nat →
  JSON.parse (text_or_default text) = Some result →
  let w1 := dispatch Reset w in
  let w2 := dispatch (Settle (Resolved text)) w1 in
  isAnalyzing (app w1) = isAnalyzing (app w)
  ∧ inflight w1 = inflight w
  ∧ offered w1 (Settle (Resolved text)) = true
  ∧ analysis (app w1) = None
  ∧ analysis (app w2) = nullable result
  ∧ showResults (app w2) = true
  ∧ phase (app w2) = Displaying
  ∧ answers (app w2) = ∅.
Proof.
  intros Hfl Hparse w1 w2. subst w1 w2. simpl.
  unfold runAnalysis_resume. rewrite Hparse. simpl.
  repeat split. by apply bool_decide_eq_true.
Qed.

Lemma late_response_after_reset_witness :
  isAnalyzing (app (dispatch Reset in_flight)) = true
  ∧ (∃ result,
       analysis (app (dispatch (Settle (Resolved (Some payload_complete)))
                        (dispatch Reset in_flight))) = Some result
       ∧ JSON.get "jobs" result = Some (JSON.Str "c"))
  ∧ phase (app (dispatch (Settle (Resolved (Some payload_complete)))
                  (dispatch Reset in_flight))) = Displaying.
Proof.
  assert (Hparse : JSON.parse (text_or_default (Some payload_complete))
                   = Some (JSON.Object
                             [("nickname", JSON.Str "a"); ("traits", JSON.Str "b");
                              ("jobs", JSON.Str "c"); ("partner", JSON.Str "d")])).
  { vm_compute. reflexivity. }
  destruct (late_response_after_reset in_flight (Some payload_complete) _
              in_flight_awaits Hparse)
    as (Hflag & _ & _ & _ & Hana & _ & Hphase & _).
  split; [rewrite Hflag; vm_compute; reflexivity | ].
  split; [ | exact Hphase].
  eexists. split; [exact Hana | ]. vm_compute. reflexivity.
Defined.

(** C8, as stated, fails: [reset] does not touch the in-flight flag.
    Called while a call is awaited it leaves a session that is not the
    initial one and whose view is the loading panel. *)
Lemma reset_in_flight_is_not_initial :
  isAnalyzing (reset (app in_flight)) = true
  ∧ reset (app in_flight) ≠ initial
  ∧ phase (reset (app in_flight)) = Analyzing
  ∧ phase (reset (app in_flight)) ≠ Collecting.
Proof.
  assert (Hia : isAnalyzing (reset (app in_flight)) = true)
    by (vm_compute; reflexivity).
  assert (Hph : phase (reset (app in_flight)) = Analyzing)
    by (vm_compute; reflexivity).
  split; [exact Hia | ]. split.
  - intros Heq. rewrite Heq in Hia. discriminate Hia.
  - split; [exact Hph | ]. rewrite Hph. discriminate.
Qed.

(** C8, amended: in any state [reset] empties the answers, which makes
    the scores absent, clears the analysis and the error and hides the
    results view; it leaves the in-flight flag and the awaited calls as
    they were.  So its result is the initial session, in the collecting
    phase, when the flag was not set, and that is the case whenever the
    view offers the reset button. *)
Theorem reset_clears (w : World) :
  let w' := dispatch Reset w in
  answers (app w') = ∅
  ∧ scores (answers (app w')) = Returns None
  ∧ analysis (app w') = None
  ∧ error (app w') = None
  ∧ showResults (app w') = false
  ∧ isAnalyzing (app w') = isAnalyzing (app w)
  ∧ inflight w' = inflight w
  ∧ (isAnalyzing (app w) = false →
     app w' = initial ∧ phase (app w') = Collecting)
  ∧ (reachable w → offered w Reset = true →
     app w' = initial ∧ phase (app w') = Collecting).
Proof.
  intros w'.
  assert (Hidle : isAnalyzing (app w) = false →
                  app w' = initial ∧ phase (app w') = Collecting).
  { intros Hia. subst w'. destruct w as [[a ia an er sr] n rq].
    simpl in *. subst ia. split; reflexivity. }
  do 7 (split; [reflexivity | ]). split; [exact Hidle | ].
  intros Hw Hoff. apply Hidle.
  destruct (reachable_invariant w Hw) as (_ & _ & Hres & _). by apply Hres.
Qed.

Lemma reset_clears_witness :
  app (dispatch Reset displaying) = initial
  ∧ phase (app (dispatch Reset displaying)) = Collecting.
Proof.
  apply (reset_clears displaying).
  - exact displaying_reachable.
  - vm_compute. reflexivity.
Defined.

(** * Further properties *)

(** ** The scorer on arbitrary records *)

(** The score of a trait in terms of what its two questions read. *)
Lemma calculateTrait_reads (answers : gmap Z Z) (T : Trait.t) (qp qn : Question) :
  qp ∈ QUESTIONS → trait qp = T → isPositive qp = true →
  qn ∈ QUESTIONS → trait qn = T → isPositive qn = false →
  calculateTrait answers T
  = Returns
      match answers !! id qp, answers !! id qn with
      | Some p, Some n => Num ((Qc_of_Z p + (Qc_of_Z 4 - Qc_of_Z n)) / Qc_of_Z 2)%Qc
      | _, _ => NaN
      end.
Proof.
  intros Hqp HTp Hpos Hqn HTn Hneg. unfold calculateTrait.
  rewrite (posQ_unique T qp), (negQ_unique T qn) by done.
  destruct (answers !! id qp) as [p | ], (answers !! id qn) as [n | ]; simpl;
    reflexivity.
Qed.

(** X1: a trait's score is [NaN] exactly when one of its two questions
    has no answer in the record. *)
Theorem calculateTrait_NaN_iff (answers : gmap Z Z) (T : Trait.t) (qp qn : Question) :
  qp ∈ QUESTIONS → trait qp = T → isPositive qp = true →
  qn ∈ QUESTIONS → trait qn = T → isPositive qn = false →
  calculateTrait answers T = Returns NaN
  ↔ answers !! id qp = None ∨ answers !! id qn = None.
Proof.
  intros Hqp HTp Hpos Hqn HTn Hneg.
  rewrite (calculateTrait_reads answers T qp qn) by done.
  destruct (answers !! id qp) as [p | ], (answers !! id qn) as [n | ];
    split; intros H; try done; try (by left); try (by right).
  by destruct H.
Qed.

Lemma calculateTrait_NaN_iff_witness :
  calculateTrait (delete 6 scenario_answers) Trait.E = Returns NaN.
Proof.
  eapply (calculateTrait_NaN_iff (delete 6 scenario_answers) Trait.E).
  - apply list_elem_of_here.
  - reflexivity.
  - reflexivity.
  - do 5 apply list_elem_of_further. apply list_elem_of_here.
  - reflexivity.
  - reflexivity.
  - right. vm_compute. reflexivity.
Defined.


Lemma question_polarity (T : Trait.t) (x : Question) :
  x ∈ QUESTIONS → trait x = T →
  posQ T = Some x ∧ isPositive x = true ∨ negQ T = Some x ∧ isPositive x = false.
Proof.
  intros Hx HT. destruct (isPositive x) eqn:Hpol.
  - left. split; [by apply posQ_unique | done].
  - right. split; [by apply negQ_unique | done].
Qed.

Lemma catalog_covered_size (answers : gmap Z Z) :
  (∀ x, x ∈ QUESTIONS → is_Some (answers !! id x)) → (10 ≤ size answers)%nat.
Proof.
  intros Hall. rewrite <- question_ids_size, <- (size_dom answers).
  apply subseteq_size. intros i Hi.
  apply elem_of_question_ids in Hi as (x & Hx & <-).
  apply elem_of_dom. by apply Hall.
Qed.

(** X2: the gate counts keys.  A record of ten or more keys that lacks
    the answer of a catalog question still yields a scores record; in it
    that question's trait is [NaN], which the radar chart plots as 0 and
    the score grid prints as the text NaN. *)
Theorem scores_counts_keys (answers : gmap Z Z) (x : Question) :
  (10 ≤ size answers)%nat → x ∈ QUESTIONS → answers !! id x = None →
  ∃ sc, scores answers = Returns (Some sc)
        ∧ Scores.get (trait x) sc = NaN
        ∧ radar_value (Some sc) (trait x) = num_of_Z 0
        ∧ toFixed1 (Scores.get (trait x) sc) = "NaN".
Proof.
  intros Hsize Hx Hnone.
  destruct (scores_defined answers Hsize) as (sc & Hsc & Hget).
  exists sc. split; [exact Hsc | ].
  assert (HNaN : Scores.get (trait x) sc = NaN).
  { specialize (Hget (trait x)).
    destruct (posQ_found (trait x)) as (qp & Hp & Hqp & HTp & Hpos),
      (negQ_found (trait x)) as (qn & Hn & Hqn & HTn & Hneg).
    rewrite (calculateTrait_reads answers (trait x) qp qn) in Hget by done.
    destruct (question_polarity (trait x) x Hx eq_refl) as [[Hpx _] | [Hnx _]].
    - rewrite Hp in Hpx. injection Hpx as ->. rewrite Hnone in Hget.
      by injection Hget.
    - rewrite Hn in Hnx. injection Hnx as ->. rewrite Hnone in Hget.
      destruct (answers !! id qp); by injection Hget. }
  split; [exact HNaN | ]. unfold radar_value. by rewrite HNaN.
Qed.

Lemma shifted_answers_size : (10 ≤ size shifted_answers)%nat.
Proof. apply Nat.eq_le_incl. vm_compute. reflexivity. Defined.

Lemma scores_counts_keys_witness :
  ∃ sc, scores shifted_answers = Returns (Some sc) ∧ Scores.E sc = NaN.
Proof.
  pose proof (scores_counts_keys shifted_answers) as H.
  specialize (H _ shifted_answers_size (list_elem_of_here _ _)).
  destruct H as (sc & Hsc & HNaN & _); [vm_compute; reflexivity | ].
  exists sc. split; [exact Hsc | exact HNaN].
Defined.

(** X3: an answer under a key that is not the id of one of the trait's
    two questions leaves the trait's score as it was. *)
Theorem calculateTrait_other_answers (answers : gmap Z Z) (T : Trait.t) (i v : Z) :
  (∀ x, x ∈ QUESTIONS → trait x = T → id x ≠ i) →
  calculateTrait (handleAnswer i v answers) T = calculateTrait answers T.
Proof.
  intros Hother.
  destruct (posQ_found T) as (qp & _ & Hqp & HTp & Hpos),
    (negQ_found T) as (qn & _ & Hqn & HTn & Hneg).
  rewrite !(calculateTrait_reads _ T qp qn) by done.
  unfold handleAnswer. rewrite !lookup_insert_ne; [done | | ]; apply not_eq_sym; auto.
Qed.

Lemma calculateTrait_other_answers_witness :
  calculateTrait (handleAnswer 2 0 scenario_answers) Trait.E
  = calculateTrait scenario_answers Trait.E.
Proof.
  apply calculateTrait_other_answers.
  intros x Hx HT Hid. each_question Hx; simpl in *; discriminate.
Defined.



Lemma answer_all_lookup (l : list (Z * Z)) (answers : gmap Z Z) (i : Z) :
  answer_all l answers !! i
  = match list.last (filter (λ iv, iv.1 = i) l) with
    | Some iv => Some iv.2
    | None => answers !! i
    end.
Proof.
  induction l as [ | [j v] l IH] using rev_ind; [reflexivity | ].
  unfold answer_all in *. rewrite foldl_app, list.filter_app. simpl.
  unfold handleAnswer at 1. rewrite lookup_insert.
  rewrite filter_cons, filter_nil. simpl.
  destruct (decide (j = i)) as [-> | Hne].
  - by rewrite last_snoc.
  - by rewrite app_nil_r.
Qed.

(** X5: after any sequence of answers, a key reads the value of the last
    answer given under it, or what it read before if there was none; so
    two sequences whose last answers agree under every key leave the same
    record and the same scores, whatever their order and their
    overwritten answers. *)
Theorem answer_all_last_wins (l l' : list (Z * Z)) (answers : gmap Z Z) :
  (∀ i, answer_all l answers !! i
        = match list.last (filter (λ iv, iv.1 = i) l) with
          | Some iv => Some iv.2
          | None => answers !! i
          end)
  ∧ ((∀ i, list.last (filter (λ iv, iv.1 = i) l) = list.last (filter (λ iv, iv.1 = i) l')) →
     answer_all l answers = answer_all l' answers
     ∧ scores (answer_all l answers) = scores (answer_all l' answers)).
Proof.
  split; [intros i; apply answer_all_lookup | ].
  intros Hlast.
  assert (Heq : answer_all l answers = answer_all l' answers).
  { apply map_eq. intros i. by rewrite !answer_all_lookup, Hlast. }
  by rewrite Heq.
Qed.

Lemma answer_all_last_wins_witness :
  scores (answer_all [(1, 0); (2, 3); (1, 4)] ∅)
  = scores (answer_all [(1, 4); (2, 3)] ∅).
Proof.
  apply (answer_all_last_wins [(1, 0); (2, 3); (1, 4)] [(1, 4); (2, 3)] ∅).
  intros i. rewrite !filter_cons, !filter_nil. simpl.
  destruct (decide (1 = i)), (decide (2 = i)); try reflexivity; lia.
Defined.

(** ** Half steps *)

Lemma half_steps_of_answered (answers : gmap Z Z) :
  (∀ x, x ∈ QUESTIONS → ∃ v, answers !! id x = Some v ∧ 0 ≤ v ≤ 4) →
  ∃ sc, scores answers = Returns (Some sc) ∧ half_steps sc.
Proof.
  intros Hall.
  destruct (scores_defined answers) as (sc & Hsc & Hget).
  { apply catalog_covered_size. intros x Hx.
    destruct (Hall x Hx) as (v & Hv & _). eauto. }
  exists sc. split; [exact Hsc | ]. intros T. specialize (Hget T).
  destruct (posQ_found T) as (qp & _ & Hqp & HTp & Hpos),
    (negQ_found T) as (qn & _ & Hqn & HTn & Hneg).
  rewrite (calculateTrait_reads answers T qp qn) in Hget by done.
  destruct (Hall qp Hqp) as (p & Hp & Hpr), (Hall qn Hqn) as (n & Hn & Hnr).
  rewrite Hp, Hn in Hget. injection Hget as <-.
  exists (p + (4 - n)). split; [lia | ].
  by rewrite Z2Qc_inj_add, Z2Qc_inj_sub.
Qed.

(** X6: when every question of the catalog has an answer in 0..4, the
    scores record is defined and each of its five fields is one of
    0, 0.5, 1, ..., 4: a number [k/2] with [k] in 0..8, hence between 0
    and 4. *)
Theorem scores_half_steps (answers : gmap Z Z) :
  (∀ x, x ∈ QUESTIONS → ∃ v, answers !! id x = Some v ∧ 0 ≤ v ≤ 4) →
  ∃ sc, scores answers = Returns (Some sc)
        ∧ ∀ T, ∃ (k : Z) (q : Qc),
            0 ≤ k ≤ 8
            ∧ Scores.get T sc = Num q
            ∧ q = (Qc_of_Z k / Qc_of_Z 2)%Qc
            ∧ (Qc_of_Z 0 ≤ q)%Qc ∧ (q ≤ Qc_of_Z 4)%Qc.
Proof.
  intros Hall.
  destruct (half_steps_of_answered answers Hall) as (sc & Hsc & Hhalf).
  exists sc. split; [exact Hsc | ]. intros T.
  destruct (Hhalf T) as (k & Hk & Hget).
  exists k, (Qc_of_Z k / Qc_of_Z 2)%Qc.
  split; [exact Hk | ]. split; [exact Hget | ]. split; [reflexivity | ].
  assert (H : k = 0 ∨ k = 1 ∨ k = 2 ∨ k = 3 ∨ k = 4 ∨ k = 5 ∨ k = 6
              ∨ k = 7 ∨ k = 8) by lia.
  repeat (destruct H as [-> | H]); [.. | subst]; split; by vm_compute.
Qed.

Lemma scenario_answered (x : Question) :
  x ∈ QUESTIONS → ∃ v, scenario_answers !! id x = Some v ∧ 0 ≤ v ≤ 4.
Proof.
  intros Hx. each_question Hx; eexists; (split; [vm_compute; reflexivity | lia]).
Defined.

Lemma scores_half_steps_witness :
  ∃ sc, scores scenario_answers = Returns (Some sc)
        ∧ ∃ q, Scores.N sc = Num q ∧ (q ≤ Qc_of_Z 4)%Qc.
Proof.
  destruct (scores_half_steps scenario_answers scenario_answered) as (sc & Hsc & Hk).
  destruct (Hk Trait.N) as (k & q & _ & Hget & _ & _ & Hle).
  exists sc. split; [exact Hsc | ]. exists q. split; [exact Hget | exact Hle].
Defined.

(** ** Rendering *)

Lemma half_step_cases (x : number) :
  half_step x →
  ∃ k, x = Num (Qc_of_Z k / Qc_of_Z 2)%Qc
       ∧ (k = 0 ∨ k = 1 ∨ k = 2 ∨ k = 3 ∨ k = 4 ∨ k = 5 ∨ k = 6 ∨ k = 7 ∨ k = 8).
Proof. intros (k & Hk & ->). exists k. split; [reflexivity | lia]. Qed.

Ltac each_half_step H :=
  apply half_step_cases in H as (? & -> & H);
  repeat (destruct H as [-> | H]); [.. | subst].

Lemma toFixed1_half_step_length (x : number) :
  half_step x → String.length (toFixed1 x) = 3%nat.
Proof. intros H. each_half_step H; vm_compute; reflexivity. Qed.

Lemma toFixed1_half_step_inj (x y : number) :
  half_step x → half_step y → toFixed1 x = toFixed1 y → x = y.
Proof.
  intros Hx Hy. each_half_step Hx; each_half_step Hy; intros Heq;
    try reflexivity; vm_compute in Heq; discriminate Heq.
Qed.

(** X7: a score that is a half step [k/2], [k] in 0..8, is printed
    exactly: the integer part, a point, and 0 or 5 as [k] is even or odd;
    so the text has three characters and different half steps print
    differently. *)
Theorem toFixed1_half_step (k : Z) :
  0 ≤ k ≤ 8 →
  toFixed1 (Num (Qc_of_Z k / Qc_of_Z 2)%Qc)
  = (decimal (k / 2) ++ "." ++ (if Z.even k then "0" else "5"))%string
  ∧ String.length (toFixed1 (Num (Qc_of_Z k / Qc_of_Z 2)%Qc)) = 3%nat
  ∧ ∀ k', 0 ≤ k' ≤ 8 →
          toFixed1 (Num (Qc_of_Z k / Qc_of_Z 2)%Qc)
          = toFixed1 (Num (Qc_of_Z k' / Qc_of_Z 2)%Qc) → k = k'.
Proof.
  intros Hk. split; [ | split].
  - assert (H : k = 0 ∨ k = 1 ∨ k = 2 ∨ k = 3 ∨ k = 4 ∨ k = 5 ∨ k = 6
                ∨ k = 7 ∨ k = 8) by lia.
    repeat (destruct H as [-> | H]); [.. | subst]; vm_compute; reflexivity.
  - apply toFixed1_half_step_length. by exists k.
  - intros k' Hk' Heq.
    apply toFixed1_half_step_inj in Heq; [ | by exists k | by exists k'].
    injection Heq as Heq.
    assert (H : k = 0 ∨ k = 1 ∨ k = 2 ∨ k = 3 ∨ k = 4 ∨ k = 5 ∨ k = 6
                ∨ k = 7 ∨ k = 8) by lia.
    assert (H' : k' = 0 ∨ k' = 1 ∨ k' = 2 ∨ k' = 3 ∨ k' = 4 ∨ k' = 5 ∨ k' = 6
                ∨ k' = 7 ∨ k' = 8) by lia.
    (repeat (destruct H as [-> | H]); [.. | subst]);
      (repeat (destruct H' as [-> | H']); [.. | subst]);
      try reflexivity; vm_compute in Heq; discriminate Heq.
Qed.

Lemma toFixed1_half_step_witness :
  toFixed1 (Num (Qc_of_Z 5 / Qc_of_Z 2)%Qc) = "2.5".
Proof.
  destruct (toFixed1_half_step 5) as (Hprint & _); [lia | ].
  rewrite Hprint. vm_compute. reflexivity.
Defined.

Lemma append_cancel_l (s a b : string) :
  (s ++ a)%string = (s ++ b)%string → a = b.
Proof.
  induction s as [ | c s IH]; simpl; intros H; [exact H | ].
  injection H as H. by apply IH.
Qed.

Lemma append_split (a b x y : string) :
  String.length a = String.length b →
  (a ++ x)%string = (b ++ y)%string → a = b ∧ x = y.
Proof.
  revert b. induction a as [ | c a IH]; intros [ | d b] Hlen H;
    simpl in *; try discriminate Hlen.
  - by split.
  - injection Hlen as Hlen. injection H as -> H.
    destruct (IH b Hlen H) as [-> ->]. by split.
Qed.

(** X8: the prompt tells the scores apart: two records of half steps
    with the same prompt text are the same record. *)
Theorem contents_determines_scores (sc sc' : Scores.t) :
  half_steps sc → half_steps sc' → contents sc = contents sc' → sc = sc'.
Proof.
  intros Hsc Hsc' H. unfold contents in H.
  pose proof (λ T, toFixed1_half_step_length _ (Hsc T)) as Hlen.
  pose proof (λ T, toFixed1_half_step_length _ (Hsc' T)) as Hlen'.
  pose proof (λ T, toFixed1_half_step_inj _ _ (Hsc T) (Hsc' T)) as Hinj.
  apply append_cancel_l, append_split in H as [HE H];
    [ | exact (eq_trans (Hlen Trait.E) (eq_sym (Hlen' Trait.E)))].
  apply append_cancel_l, append_split in H as [HA H];
    [ | exact (eq_trans (Hlen Trait.A) (eq_sym (Hlen' Trait.A)))].
  apply append_cancel_l, append_split in H as [HC H];
    [ | exact (eq_trans (Hlen Trait.C) (eq_sym (Hlen' Trait.C)))].
  apply append_cancel_l, append_split in H as [HN H];
    [ | exact (eq_trans (Hlen Trait.N) (eq_sym (Hlen' Trait.N)))].
  apply append_cancel_l, append_split in H as [HO _];
    [ | exact (eq_trans (Hlen Trait.O) (eq_sym (Hlen' Trait.O)))].
  apply (Hinj Trait.E) in HE. apply (Hinj Trait.A) in HA.
  apply (Hinj Trait.C) in HC. apply (Hinj Trait.N) in HN.
  apply (Hinj Trait.O) in HO.
  destruct sc, sc'. simpl in *. by subst.
Qed.

Lemma scenario_record_half_steps : half_steps scenario_record.
Proof.
  intros T. destruct T; [exists 8 | exists 8 | exists 8 | exists 4 | exists 8];
    (split; [lia | apply Num_canon; reflexivity]).
Defined.

Lemma contents_determines_scores_witness : scenario_record = scenario_record.
Proof.
  apply contents_determines_scores; [apply scenario_record_half_steps .. | reflexivity].
Defined.

(** X9: the score grid is empty while the memo is [null]; otherwise it
    has one cell per trait, in the order E, A, C, N, O, labelled with the
    part of the trait's name before its first space; the five labels
    differ; and the cells of two records of half steps are the same only
    for the same record. *)
Theorem score_cells_show (sc sc' : Scores.t) :
  score_cells None = []
  ∧ (score_cells (Some sc)).*2 = toFixed1 <$> [Scores.E sc; Scores.A sc; Scores.C sc; Scores.N sc; Scores.O sc]
  ∧ (∀ T, ∃ gloss, TRAIT_NAMES T = (first_word (TRAIT_NAMES T) ++ " " ++ gloss)%string)
  ∧ (score_cells (Some sc)).*1 = (λ T, first_word (TRAIT_NAMES T)) <$> score_keys
  ∧ NoDup (score_cells (Some sc)).*1
  ∧ (half_steps sc → half_steps sc' →
     score_cells (Some sc) = score_cells (Some sc') → sc = sc').
Proof.
  split; [reflexivity | ]. split; [reflexivity | ].
  split; [intros T; destruct T; eexists; reflexivity | ].
  split; [reflexivity | ].
  split; [simpl; decide_by_eval | ].
  intros Hsc Hsc' Heq. simpl in Heq.
  pose proof (λ T, toFixed1_half_step_inj _ _ (Hsc T) (Hsc' T)) as Hinj.
  injection Heq as HE HA HC HN HO.
  apply (Hinj Trait.E) in HE. apply (Hinj Trait.A) in HA.
  apply (Hinj Trait.C) in HC. apply (Hinj Trait.N) in HN.
  apply (Hinj Trait.O) in HO.
  destruct sc, sc'. simpl in *. by subst.
Qed.

Lemma score_cells_show_witness :
  scenario_record = scenario_record.
Proof.
  apply (score_cells_show scenario_record scenario_record);
    [apply scenario_record_half_steps .. | reflexivity].
Defined.

(** ** More of the view-driven session *)

Lemma phase_Ready_iff (s : App) :
  phase s = Ready
  ↔ showResults s = false ∧ isAnalyzing s = false ∧ size (answers s) = 10%nat.
Proof.
  unfold phase, allAnswered.
  destruct (showResults s), (isAnalyzing s); simpl;
    try (split; [discriminate | intros (? & ? & ?); discriminate]).
  case_bool_decide as Hsize; simpl in Hsize; split;
    try discriminate; try done.
  intros (_ & _ & ?). done.
Qed.

Lemma answered_in_range (answers : gmap Z Z) :
  dom answers ⊆ question_ids → size answers = 10%nat →
  map_Forall (λ _ v, 0 ≤ v ≤ 4) answers →
  ∀ x, x ∈ QUESTIONS → ∃ v, answers !! id x = Some v ∧ 0 ≤ v ≤ 4.
Proof.
  intros Hdom Hsize Hrange x Hx.
  destruct (proj1 (complete_iff answers Hdom)) with (x := x) as [v Hv];
    [lia | done | ].
  exists v. split; [done | ]. by apply (Hrange (id x)).
Qed.

Lemma step_view_invariant (w : World) (e : Event) :
  view_invariant w → offered w e = true → view_invariant (dispatch e w).
Proof.
  intros (Hinv & Hrange & Hshown & Herr & Hreq) Hoff.
  split; [by apply step_invariant | ].
  destruct Hinv as (Hdom & Hfl & Hres & Hana & Hsize).
  destruct e as [i v | | | r].
  - apply offered_Answer in Hoff as (Hshow & Hi & Hv).
    destruct w as [[a ia an er sr] n rq]; simpl in *. subst sr.
    split; [by apply map_Forall_insert_2 | ].
    split; [done | ]. split; [ | done].
    intros m Hm. destruct (Herr m Hm) as [-> Hready]. split; [done | ].
    apply phase_Ready_iff in Hready as (_ & Hia & Hten). simpl in *.
    apply phase_Ready_iff. simpl. repeat split; try done.
    by apply answered_all_keeps_size.
  - apply offered_Run in Hoff as (Hshow & Hidle & Hten).
    destruct (half_steps_of_answered (answers (app w))) as (sc & Hsc & Hhalf).
    { by apply answered_in_range. }
    simpl. rewrite (runAnalysis_sends _ _ Hsc).
    destruct w as [[a ia an er sr] n rq]; simpl in *. subst sr ia.
    split; [done | ]. split; [done | ]. split; [done | ].
    by apply Forall_cons.
  - simpl in Hoff.
    destruct w as [[a ia an er sr] n rq]; simpl in *. subst sr.
    split; [apply map_Forall_empty | ].
    split; [intros Hf; discriminate Hf | ].
    split; [intros m Hm; discriminate Hm | done].
  - apply offered_Settle in Hoff.
    destruct w as [[a ia an er sr] n rq]; simpl in *.
    destruct ia; [ | lia]. specialize (Hsize eq_refl).
    destruct sr; [by specialize (Hres eq_refl) | ].
    assert (Her : er = None).
    { destruct er as [m | ]; [ | done].
      destruct (Herr m eq_refl) as [_ Hready].
      apply phase_Ready_iff in Hready as (_ & Hia & _). discriminate Hia. }
    subst er. unfold runAnalysis_resume.
    destruct r as [ | text]; simpl.
    { split; [done | ]. split; [intros Hf; discriminate Hf | ].
      split; [ | done]. intros m [= <-]. split; [done | ].
      by apply phase_Ready_iff. }
    destruct (JSON.parse (text_or_default text)); simpl.
    { split; [done | ]. split; [done | ]. split; [ | done].
      intros m Hm. discriminate Hm. }
    split; [done | ]. split; [intros Hf; discriminate Hf | ].
    split; [ | done]. intros m [= <-]. split; [done | ].
    by apply phase_Ready_iff.
Qed.

Lemma reachable_view_invariant (w : World) : reachable w → view_invariant w.
Proof.
  induction 1 as [ | w e Hw IH Hoff].
  - split; [by apply reachable_invariant, reachable_boot | ].
    split; [apply map_Forall_empty | ]. by repeat split.
  - by apply step_view_invariant.
Qed.

Lemma radar_value_Num (sc : Scores.t) (T : Trait.t) (q : Qc) :
  Scores.get T sc = Num q → radar_value (Some sc) T = Num q.
Proof.
  intros H. unfold radar_value. rewrite H.
  destruct (decide (q = Q2Qc 0)) as [-> | _]; [ | reflexivity].
  unfold num_of_Z. by rewrite Z2Qc_inj_0.
Qed.

(** X10: what the radar chart plots is never [NaN]: it is the trait's
    score whenever that is a number, and 0 when the memo is [null] or
    the score is [NaN]. *)
Theorem radar_value_plots (memo : option Scores.t) (T : Trait.t) :
  (∃ q, radar_value memo T = Num q)
  ∧ (memo = None → radar_value memo T = num_of_Z 0)
  ∧ (∀ sc, memo = Some sc →
       radar_value memo T
       = match Scores.get T sc with NaN => num_of_Z 0 | Num q => Num q end).
Proof.
  split; [ | split].
  - destruct memo as [sc | ]; [ | by eexists].
    destruct (Scores.get T sc) as [q | ] eqn:Hget.
    + exists q. by apply radar_value_Num.
    + unfold radar_value. rewrite Hget. by eexists.
  - by intros ->.
  - intros sc ->. destruct (Scores.get T sc) as [q | ] eqn:Hget.
    + by apply radar_value_Num.
    + unfold radar_value. by rewrite Hget.
Qed.

Lemma radar_value_plots_witness :
  radar_value None Trait.E = num_of_Z 0
  ∧ radar_value (Some scenario_record) Trait.N = num_of_Z 2.
Proof.
  destruct (radar_value_plots None Trait.E) as (_ & Hnull & _).
  destruct (radar_value_plots (Some scenario_record) Trait.N) as (_ & _ & Hsome).
  split; [by apply Hnull | ]. by rewrite (Hsome scenario_record).
Defined.

(** X11: in every world reached through the view, the answered keys
    are catalog ids, the answers are in 0..4 and there are at most ten;
    the submit condition [allAnswered] holds exactly when the scores memo
    is defined, and the memo's five scores are then half steps. *)
Theorem reachable_answers (w : World) :
  reachable w →
  dom (answers (app w)) ⊆ question_ids
  ∧ map_Forall (λ _ v, 0 ≤ v ≤ 4) (answers (app w))
  ∧ (size (answers (app w)) ≤ 10)%nat
  ∧ (allAnswered (answers (app w)) = true
     ↔ ∃ sc, scores (answers (app w)) = Returns (Some sc))
  ∧ (∀ sc, scores (answers (app w)) = Returns (Some sc) → half_steps sc).
Proof.
  intros Hw.
  destruct (reachable_view_invariant w Hw) as ((Hdom & _) & Hrange & _).
  assert (Hle : (size (answers (app w)) ≤ 10)%nat).
  { rewrite <- question_ids_size, <- (size_dom (answers (app w))).
    by apply subseteq_size. }
  split; [done | ]. split; [done | ]. split; [done | ]. split.
  - rewrite scores_some_iff. unfold allAnswered.
    rewrite bool_decide_eq_true. simpl. lia.
  - intros sc Hsc.
    destruct (half_steps_of_answered (answers (app w))) as (sc' & Hsc' & Hhalf).
    { apply answered_in_range; try done.
      assert (10 ≤ size (answers (app w)))%nat; [ | lia].
      apply scores_some_iff. eauto. }
    rewrite Hsc in Hsc'. by injection Hsc' as <-.
Qed.

Lemma reachable_answers_witness :
  allAnswered (answers (app in_flight)) = true
  ↔ ∃ sc, scores (answers (app in_flight)) = Returns (Some sc).
Proof. apply (reachable_answers in_flight in_flight_reachable). Defined.

(** X12: every request sent through the view carried five half steps,
    each printed in the prompt as its exact one-decimal text. *)
Theorem reachable_requests (w : World) (request : Scores.t) :
  reachable w → request ∈ requests w →
  ∀ T, ∃ k : Z,
    0 ≤ k ≤ 8
    ∧ Scores.get T request = Num (Qc_of_Z k / Qc_of_Z 2)%Qc
    ∧ toFixed1 (Scores.get T request)
      = (decimal (k / 2) ++ "." ++ (if Z.even k then "0" else "5"))%string.
Proof.
  intros Hw Hin.
  destruct (reachable_view_invariant w Hw) as (_ & _ & _ & _ & Hreq).
  rewrite list.Forall_forall in Hreq.
  intros T. destruct (Hreq request Hin T) as (k & Hk & Hget).
  exists k. split; [done | ]. split; [done | ]. rewrite Hget.
  assert (H : k = 0 ∨ k = 1 ∨ k = 2 ∨ k = 3 ∨ k = 4 ∨ k = 5 ∨ k = 6
              ∨ k = 7 ∨ k = 8) by lia.
  repeat (destruct H as [-> | H]); [.. | subst]; vm_compute; reflexivity.
Qed.

Lemma reachable_requests_witness :
  ∃ request k, request ∈ requests in_flight
               ∧ 0 ≤ k ≤ 8
               ∧ Scores.N request = Num (Qc_of_Z k / Qc_of_Z 2)%Qc.
Proof.
  assert (Hlen : List.length (requests in_flight) = 1%nat)
    by (vm_compute; reflexivity).
  destruct (requests in_flight) as [ | request rest] eqn:Hreq;
    [discriminate Hlen | ].
  assert (Hin : request ∈ request :: rest) by apply list_elem_of_here.
  rewrite <- Hreq in Hin |- *.
  destruct (reachable_requests in_flight request in_flight_reachable Hin Trait.N)
    as (k & Hr & Hv & _).
  exists request, k. split; [exact Hin | ]. split; [exact Hr | exact Hv].
Defined.

(** X13: in every world reached through the view, an error that is held
    is the fixed message, and it is only held in the ready phase: no
    analysis is held, no call is awaited, and the submit button is
    offered, so that wherever the message is shown a retry can be
    started. *)
Theorem reachable_error (w : World) (m : string) :
  reachable w → error (app w) = Some m →
  m = ERROR_MESSAGE
  ∧ phase (app w) = Ready
  ∧ analysis (app w) = None
  ∧ inflight w = 0%nat
  ∧ offered w Run = true.
Proof.
  intros Hw Hm.
  destruct (reachable_view_invariant w Hw)
    as ((_ & Hfl & _ & Hana & _) & _ & _ & Herr & _).
  destruct (Herr m Hm) as [-> Hready]. split; [done | ]. split; [done | ].
  apply phase_Ready_iff in Hready as (Hshow & Hia & Hten).
  split; [by apply Hana | ]. split; [by rewrite Hfl, Hia | ].
  simpl. unfold allAnswered. rewrite Hshow, Hia. simpl.
  by apply bool_decide_eq_true.
Qed.

Lemma failed_reachable : reachable failed.
Proof.
  apply reachable_run; [apply reachable_boot | ].
  vm_compute. reflexivity.
Defined.

Lemma reachable_error_witness :
  phase (app failed) = Ready ∧ offered failed Run = true.
Proof.
  destruct (reachable_error failed ERROR_MESSAGE failed_reachable)
    as (_ & Hready & _ & _ & Hoff); [vm_compute; reflexivity | ].
  split; [exact Hready | exact Hoff].
Defined.

(** X14: the phases change through the view only along these edges: an
    answer keeps the phase, or completes collecting into ready; the
    submit button leads from ready to analyzing; a settled call leads
    from analyzing to displaying, or back to ready with the error
    message; reset leads from displaying to collecting. *)
Theorem phase_transitions (w : World) (e : Event) :
  reachable w → offered w e = true →
  match e with
  | Answer _ _ =>
      phase (app (dispatch e w)) = phase (app w) ∧ phase (app w) ≠ Displaying
      ∨ phase (app w) = Collecting ∧ phase (app (dispatch e w)) = Ready
  | Run =>
      phase (app w) = Ready ∧ phase (app (dispatch e w)) = Analyzing
  | Settle _ =>
      phase (app w) = Analyzing
      ∧ (phase (app (dispatch e w)) = Displaying
         ∨ phase (app (dispatch e w)) = Ready
           ∧ error (app (dispatch e w)) = Some ERROR_MESSAGE)
  | Reset =>
      phase (app w) = Displaying ∧ phase (app (dispatch e w)) = Collecting
  end.
Proof.
  intros Hw Hoff.
  destruct (reachable_invariant w Hw) as (Hdom & Hfl & Hres & Hana & Hsize).
  destruct e as [i v | | | r].
  - apply offered_Answer in Hoff as (Hshow & Hi & _).
    unfold phase, allAnswered. simpl. rewrite Hshow.
    destruct (isAnalyzing (app w)) eqn:Hia; [by left | ].
    repeat case_bool_decide; simpl in *; try (by left); try (by right).
    by rewrite answered_all_keeps_size in *.
  - apply offered_Run in Hoff as (Hshow & Hidle & Hten).
    destruct (scores_defined (answers (app w))) as (sc & Hsc & _); [lia | ].
    simpl. rewrite (runAnalysis_sends _ _ Hsc).
    unfold phase, allAnswered. simpl. rewrite Hshow, Hidle, Hten.
    by split.
  - simpl in Hoff. specialize (Hres Hoff).
    unfold phase, allAnswered. simpl. by rewrite Hoff, Hres.
  - apply offered_Settle in Hoff.
    destruct (isAnalyzing (app w)) eqn:Hia; [ | lia].
    specialize (Hsize eq_refl).
    destruct (showResults (app w)) eqn:Hshow; [by specialize (Hres eq_refl) | ].
    unfold phase at 1. rewrite Hshow, Hia. split; [done | ].
    unfold runAnalysis_resume, phase, allAnswered. simpl.
    destruct r as [ | text]; simpl.
    { right. by rewrite Hshow, Hsize. }
    destruct (JSON.parse (text_or_default text)); simpl; [by left | ].
    right. by rewrite Hshow, Hsize.
Qed.

Lemma phase_transitions_witness :
  phase (app in_flight) = Analyzing
  ∧ (phase (app (dispatch (Settle Rejected) in_flight)) = Displaying
     ∨ phase (app (dispatch (Settle Rejected) in_flight)) = Ready
       ∧ error (app (dispatch (Settle Rejected) in_flight)) = Some ERROR_MESSAGE).
Proof.
  apply (phase_transitions in_flight (Settle Rejected) in_flight_reachable).
  vm_compute. reflexivity.
Defined.

(** X15: while a call is awaited the view still takes answers.  An
    answer then leaves the call awaited and the request sent as they
    were, but it is recorded; so when the call settles, the answers, and
    with them the scores the results view charts, are the edited ones,
    whatever scores the request carried. *)
Theorem answer_during_flight (w : World) (i v : Z) (r : Response) :
  reachable w → (0 < inflight w)%nat → i ∈ question_ids → 0 ≤ v ≤ 4 →
  let w1 := dispatch (Answer i v) w in
  let w2 := dispatch (Settle r) w1 in
  offered w (Answer i v) = true
  ∧ isAnalyzing (app w1) = true
  ∧ inflight w1 = inflight w
  ∧ requests w1 = requests w
  ∧ offered w1 (Settle r) = true
  ∧ requests w2 = requests w
  ∧ answers (app w2) = handleAnswer i v (answers (app w))
  ∧ answers (app w2) !! i = Some v.
Proof.
  intros Hw Hfl Hi Hv w1 w2.
  destruct (reachable_invariant w Hw) as (_ & Hn & Hres & _).
  destruct (isAnalyzing (app w)) eqn:Hia; [ | lia].
  destruct (showResults (app w)) eqn:Hshow; [by specialize (Hres eq_refl) | ].
  assert (Hans : answers (app w2) = handleAnswer i v (answers (app w))).
  { subst w2 w1. simpl. unfold runAnalysis_resume.
    destruct r as [ | text]; [reflexivity | ].
    by destruct (JSON.parse (text_or_default text)). }
  split.
  { simpl. rewrite Hshow. simpl. apply andb_true_iff.
    split; by apply bool_decide_eq_true. }
  split; [exact Hia | ]. split; [reflexivity | ]. split; [reflexivity | ].
  split; [subst w1; simpl; by apply bool_decide_eq_true | ].
  split; [reflexivity | ]. split; [exact Hans | ].
  rewrite Hans. apply lookup_insert_eq.
Qed.

Lemma answer_during_flight_witness :
  requests (dispatch (Settle (Resolved (Some payload_complete)))
              (dispatch (Answer 1 0) in_flight))
  = requests in_flight
  ∧ answers (app (dispatch (Settle (Resolved (Some payload_complete)))
                    (dispatch (Answer 1 0) in_flight))) !! 1 = Some 0
  ∧ answers (app in_flight) !! 1 = Some 4.
Proof.
  destruct (answer_during_flight in_flight 1 0 (Resolved (Some payload_complete))
              in_flight_reachable in_flight_awaits)
    as (_ & _ & _ & _ & _ & Hreq & _ & Hans); [decide_by_eval | lia | ].
  split; [exact Hreq | ]. split; [exact Hans | vm_compute; reflexivity].
Defined.

(** ** Edge cases of a resolved response *)

(** X16: a response without text, or with the empty text, is handled as
    the text of an empty object.  When the awaited call of a session
    driven through the view resolves so, no error is stored and the
    results view is shown, with an analysis that has none of the four
    fields the view reads; reset is then the one handler offered. *)
Theorem empty_response_is_empty_object (w : World) (text : option string) :
  reachable w → (0 < inflight w)%nat →
  text = None ∨ text = Some EmptyString →
  let w' := dispatch (Settle (Resolved text)) w in
  w' = dispatch (Settle (Resolved (Some "{}"))) w
  ∧ analysis (app w') = Some (JSON.Object [])
  ∧ (∀ key, JSON.get key (JSON.Object []) = None)
  ∧ error (app w') = None
  ∧ phase (app w') = Displaying
  ∧ inflight w' = 0%nat
  ∧ offered w' Reset = true
  ∧ offered w' Run = false.
Proof.
  intros Hw Hfl Htext w'.
  destruct (reachable_view_invariant w Hw)
    as ((_ & Hn & Hres & _) & _ & _ & Herr & _).
  destruct (isAnalyzing (app w)) eqn:Hia; [ | lia].
  assert (Hnone : error (app w) = None).
  { destruct (error (app w)) as [m | ] eqn:Hm; [ | done].
    destruct (Herr m eq_refl) as [_ Hready].
    apply phase_Ready_iff in Hready as (_ & Hidle & _). congruence. }
  assert (Hsame : w' = dispatch (Settle (Resolved (Some "{}"))) w)
    by (subst w'; by destruct Htext as [-> | ->]).
  split; [exact Hsame | ]. rewrite Hsame. simpl.
  split; [reflexivity | ]. split; [reflexivity | ].
  split; [exact Hnone | ]. split; [reflexivity | ].
  split; [by rewrite Hn | ]. by split.
Qed.

Lemma empty_response_is_empty_object_witness :
  phase (app (dispatch (Settle (Resolved None)) in_flight)) = Displaying
  ∧ analysis (app (dispatch (Settle (Resolved None)) in_flight))
    = Some (JSON.Object []).
Proof.
  destruct (empty_response_is_empty_object in_flight None
              in_flight_reachable in_flight_awaits)
    as (_ & Hana & _ & _ & Hphase & _); [by left | ].
  split; [exact Hphase | exact Hana].
Defined.

(** X17: a response whose text parses to [null] shows the results view
    with no analysis held: the phase is displaying, the analysis is
    absent and the error is as it was. *)
Theorem null_response_shows_no_analysis (s : App) (text : option string) :
  JSON.parse (text_or_default text) = Some JSON.Null →
  let s' := runAnalysis_resume (Resolved text) s in
  showResults s' = true
  ∧ phase s' = Displaying
  ∧ analysis s' = None
  ∧ error s' = error s
  ∧ isAnalyzing s' = false.
Proof.
  intros Hparse. simpl. unfold runAnalysis_resume. rewrite Hparse.
  by repeat split.
Qed.

Lemma null_response_shows_no_analysis_witness :
  phase (runAnalysis_resume (Resolved (Some " null ")) (app in_flight)) = Displaying
  ∧ analysis (runAnalysis_resume (Resolved (Some " null ")) (app in_flight)) = None.
Proof.
  destruct (null_response_shows_no_analysis (app in_flight) (Some " null "))
    as (_ & Hphase & Hnone & _); [vm_compute; reflexivity | ].
  split; [exact Hphase | exact Hnone].
Defined.

(** ** The results view *)

(** X18: whenever the results view is shown in a world reached through
    the view, no call is awaited and no error is held; the scores memo
    is defined, its five scores are half steps, the radar chart plots
    exactly them and the grid has five cells; and the view offers reset
    and neither the submit button nor any answer button. *)
Theorem displaying_view (w : World) :
  reachable w → showResults (app w) = true →
  phase (app w) = Displaying
  ∧ inflight w = 0%nat
  ∧ isAnalyzing (app w) = false
  ∧ error (app w) = None
  ∧ (∃ sc, scores (answers (app w)) = Returns (Some sc)
           ∧ half_steps sc
           ∧ (∀ T, radar_value (Some sc) T = Scores.get T sc)
           ∧ List.length (score_cells (Some sc)) = 5%nat)
  ∧ offered w Reset = true
  ∧ offered w Run = false
  ∧ ∀ i v, offered w (Answer i v) = false.
Proof.
  intros Hw Hshow.
  destruct (reachable_view_invariant w Hw)
    as ((Hdom & Hfl & Hres & _) & Hrange & Hshown & Herr & _).
  specialize (Hres Hshow). specialize (Hshown Hshow).
  split; [unfold phase; by rewrite Hshow | ].
  split; [by rewrite Hfl, Hres | ]. split; [done | ]. split.
  { destruct (error (app w)) as [m | ] eqn:Hm; [ | done].
    destruct (Herr m eq_refl) as [_ Hready].
    apply phase_Ready_iff in Hready as (Hno & _). congruence. }
  split.
  { destruct (half_steps_of_answered (answers (app w))) as (sc & Hsc & Hhalf);
      [by apply answered_in_range | ].
    exists sc. split; [done | ]. split; [done | ]. split; [ | reflexivity].
    intros T. destruct (Hhalf T) as (k & _ & Hk). rewrite Hk.
    by apply radar_value_Num. }
  simpl. rewrite Hshow. by repeat split.
Qed.

Lemma displaying_view_witness :
  inflight displaying = 0%nat ∧ offered displaying Run = false.
Proof.
  destruct (displaying_view displaying displaying_reachable)
    as (_ & Hfl & _ & _ & _ & _ & Hrun & _); [vm_compute; reflexivity | ].
  split; [exact Hfl | exact Hrun].
Defined.

(** ** The trivia carousel *)

Lemma nextTrivia_mod (len i : Z) :
  0 < len → 0 ≤ i → nextTrivia len i = (i + 1) mod len.
Proof. intros Hlen Hi. unfold nextTrivia. apply Z.rem_mod_nonneg; lia. Qed.

Lemma nextTrivia_iter (len i : Z) (n : nat) :
  0 < len → 0 ≤ i < len →
  Nat.iter n (nextTrivia len) i = (i + Z.of_nat n) mod len.
Proof.
  intros Hlen Hi. induction n as [ | n IH].
  - simpl. rewrite Z.add_0_r. symmetry. apply Z.mod_small. lia.
  - rewrite Nat.iter_succ, IH.
    rewrite nextTrivia_mod by (try apply Z.mod_pos_bound; lia).
    rewrite Z.add_mod_idemp_l by lia. f_equal. lia.
Qed.

(** X19: with a non-empty trivia table and an index inside it, the next
    index, from the timer or from a tap, is inside it too: one more, or
    0 after the last; [n] steps lead to the index [n] places further
    round the table, so a full round returns to the start; and the one
    wide dot is always among the dots drawn. *)
Theorem trivia_index_cycles (len i : Z) (n : nat) :
  0 < len → 0 ≤ i < len →
  0 ≤ nextTrivia len i < len
  ∧ nextTrivia len i = (if decide (i + 1 = len) then 0 else i + 1)
  ∧ Nat.iter n (nextTrivia len) i = (i + Z.of_nat n) mod len
  ∧ Nat.iter (Z.to_nat len) (nextTrivia len) i = i
  ∧ 0 ≤ Z.rem i 8 < trivia_dots len
  ∧ ∀ d, dot_is_wide i d = true ↔ d = Z.rem i 8.
Proof.
  intros Hlen Hi.
  assert (Hnext : nextTrivia len i = (i + 1) mod len)
    by (apply nextTrivia_mod; lia).
  split; [rewrite Hnext; apply Z.mod_pos_bound; lia | ].
  split.
  { rewrite Hnext. destruct (decide (i + 1 = len)) as [-> | Hne].
    - apply Z.mod_same. lia.
    - apply Z.mod_small. lia. }
  split; [by apply nextTrivia_iter | ].
  split.
  { rewrite nextTrivia_iter, Z2Nat.id by lia.
    rewrite <- (Z.mul_1_l len) at 1. rewrite Z.mod_add by lia.
    apply Z.mod_small. lia. }
  split.
  { rewrite Z.rem_mod_nonneg by lia. unfold trivia_dots.
    pose proof (Z.mod_pos_bound i 8). pose proof (Z.mod_le i 8). lia. }
  intros d. unfold dot_is_wide. by rewrite bool_decide_eq_true.
Qed.

Lemma trivia_index_cycles_witness :
  nextTrivia 12 11 = 0 ∧ 0 ≤ Z.rem 11 8 < trivia_dots 12.
Proof.
  destruct (trivia_index_cycles 12 11 0) as (_ & Hwrap & _ & _ & Hdot & _);
    [lia | lia | ].
  split; [exact Hwrap | exact Hdot].
Defined.
